(** * Symbol synchronizer (liquid-dsp, [src/filter/src/symsync.c])

    A shallow embedding of the symbol timing synchronizer and the
    verification of its specification.

    The C file is a template over three numeric types (TI, TC, TO); its
    own control variables are C [float]s, [unsigned int]s and one [int].
    The embedding follows that: integers are [Z] with their 32-bit
    wrap-around written out, and the [float] arithmetic is an interface
    ([FloatArith]) whose instance [binary32] is IEEE-754 single
    precision, built on the Standard Library's executable [SpecFloat]
    (precision 24, emax 128), which is what the C code computes with.
    The polyphase filter bank (FIRPFB) is not part of [symsync.c]; the
    synchronizer is written against an interface ([FirPfb]) and one
    instance of it is given from the specification. *)

From Stdlib Require Import ZArith List Bool Lia QArith Qabs.
From Stdlib Require Import Floats.SpecFloat.
Import ListNotations.

Set Implicit Arguments.
Local Open Scope Z_scope.

(** * The embedding *)

(** ** Machine integers *)

Module MachineInt.

Definition modulus : Z := 2 ^ 32.
Definition half_modulus : Z := 2 ^ 31.
Definition min_int : Z := - half_modulus.
Definition max_int : Z := half_modulus - 1.

(** [unsigned int] arithmetic wraps modulo 2^32. *)
Definition wrap_uint (z : Z) : Z := z mod modulus.

(** Conversion of an [int] to [unsigned int], as the usual arithmetic
    conversions do when an [int] meets an [unsigned int]. *)
Definition uint_of_int (z : Z) : Z := z mod modulus.

(** Conversion of an [unsigned int] back to [int] (two's complement). *)
Definition int_of_uint (z : Z) : Z :=
  let u := z mod modulus in
  if u <? half_modulus then u else u - modulus.

Definition in_uint (z : Z) : Prop := 0 <= z < modulus.
Definition in_int (z : Z) : Prop := min_int <= z <= max_int.

Definition in_intb (z : Z) : bool := (min_int <=? z) && (z <=? max_int).

(** [b -= n] for [int b] and [unsigned int n]: the subtraction is done
    on [unsigned int] and the result converted back to [int]. *)
Definition int_sub_uint (b n : Z) : Z :=
  int_of_uint (wrap_uint (uint_of_int b - n)).

End MachineInt.
Import MachineInt.

(** ** The result of a call

    [Fatal] is [exit(1)] after an error message, [Undefined] is an
    execution that leaves the behaviour defined by C (a read outside an
    array, a [float] that does not fit the [int] it is converted to), and
    [OutOfFuel] is a loop that did not finish within the given number of
    iterations. *)

Inductive result (A : Type) : Type :=
| Ok (a : A)
| Fatal
| Undefined
| OutOfFuel.

Arguments Ok {A} a.
Arguments Fatal {A}.
Arguments Undefined {A}.
Arguments OutOfFuel {A}.

Definition bind {A B : Type} (r : result A) (f : A -> result B) : result B :=
  match r with
  | Ok a => f a
  | Fatal => Fatal
  | Undefined => Undefined
  | OutOfFuel => OutOfFuel
  end.

Notation "x <- r ;; k" := (bind r (fun x => k))
  (at level 61, r at next level, right associativity).

(** ** The [float] interface *)

Class FloatArith (F : Type) : Type := {
  (** a decimal literal [n/d] of the source, e.g. [0.22f] is [f_lit 22 100] *)
  f_lit : Z -> positive -> F;
  (** [(float)u] for an [unsigned int] *)
  f_of_uint : Z -> F;
  f_add : F -> F -> F;
  f_sub : F -> F -> F;
  f_mul : F -> F -> F;
  f_div : F -> F -> F;
  f_neg : F -> F;
  (** [x < y] *)
  f_lt : F -> F -> bool;
  (** the integer [roundf(x)] (halves away from zero); [None] when [x]
      is not a number or infinite *)
  f_roundf : F -> option Z;
  (** [isnan(x)], [isinf(x)], [copysignf(x, y)] and [INFINITY], which
      the product of two [float complex] values uses *)
  f_isnan : F -> bool;
  f_isinf : F -> bool;
  f_copysign : F -> F -> F;
  f_infinity : F;
  f_mul_comm : forall x y, f_mul x y = f_mul y x;
  f_mul_neg_l : forall x y, f_mul (f_neg x) y = f_neg (f_mul x y);
  f_sub_neg_r : forall x y, f_sub x (f_neg y) = f_add x y;
  f_add_neg_r : forall x y, f_add x (f_neg y) = f_sub x y
}.

Definition f_gt {F} `{FloatArith F} (x y : F) : bool := f_lt y x.

(** [(int)roundf(x)]: undefined when the rounded value is not an [int]. *)
Definition int_of_roundf {F} `{FloatArith F} (x : F) : option Z :=
  match f_roundf x with
  | Some z => if in_intb z then Some z else None
  | None => None
  end.

(** *** IEEE-754 single precision *)

Module Binary32.

Definition prec : Z := 24.
Definition emax : Z := 128.

Definition float : Type := spec_float.

Definition of_Z (z : Z) : float := binary_normalize prec emax z 0 false.

Definition add : float -> float -> float := SFadd prec emax.
Definition sub : float -> float -> float := SFsub prec emax.
Definition mul : float -> float -> float := SFmul prec emax.
Definition div : float -> float -> float := SFdiv prec emax.
Definition ltb : float -> float -> bool := SFltb.

(** The nearest [float] to [n/d]; numerator and denominator of the
    literals of this file are small integers, exact as [float]s, so
    the one rounding of the division is the rounding of the literal. *)
Definition lit (n : Z) (d : positive) : float := div (of_Z n) (of_Z (Zpos d)).

(** [roundf]: nearest integer, halves away from zero. *)
Definition roundf (x : float) : option Z :=
  match x with
  | S754_zero _ => Some 0
  | S754_finite s m e =>
      let mag :=
        match e with
        | Zneg p => (Zpos m + 2 ^ (Zpos p - 1)) / 2 ^ (Zpos p)
        | _ => Zpos m * 2 ^ e
        end in
      Some (if s then - mag else mag)
  | _ => None
  end.

Definition isnan (x : float) : bool :=
  match x with S754_nan => true | _ => false end.

Definition isinf (x : float) : bool :=
  match x with S754_infinity _ => true | _ => false end.


(** The sign bit.  A NaN of [spec_float] carries none; it is read as
    clear here.  The product of two complex numbers takes the sign of a
    NaN only for a zero of its recalculation, and the recalculated
    parts do not depend on the sign of a zero (proved with the
    properties of the product in single precision). *)
Definition signbit (x : float) : bool :=
  match x with
  | S754_zero s | S754_infinity s | S754_finite s _ _ => s
  | S754_nan => false
  end.

(** [copysignf(x, y)]: [x] with the sign of [y]. *)
Definition copysign (x y : float) : float :=
  match x with
  | S754_zero _ => S754_zero (signbit y)
  | S754_infinity _ => S754_infinity (signbit y)
  | S754_finite _ m e => S754_finite (signbit y) m e
  | S754_nan => S754_nan
  end.

Definition infinity : float := S754_infinity false.

Lemma binary32_mul_comm (x y : float) : mul x y = mul y x.
Proof.
  unfold mul, SFmul.
  destruct x as [sx|sx| |sx mx ex], y as [sy|sy| |sy my ey];
    try reflexivity; try (rewrite xorb_comm; reflexivity).
  rewrite xorb_comm, Pos.mul_comm, Z.add_comm. reflexivity.
Qed.

(** Rounding treats both signs alike. *)
Lemma binary_round_aux_opp (s : bool) (m e : Z) (l : location) :
  binary_round_aux prec emax (negb s) m e l
  = SFopp (binary_round_aux prec emax s m e l).
Proof.
  unfold binary_round_aux.
  destruct (shr_fexp prec emax m e l) as [mrs e1].
  destruct (shr_fexp prec emax _ e1 loc_Exact) as [mrs2 e2].
  destruct (shr_m mrs2); try reflexivity.
  destruct (e2 <=? emax - prec); reflexivity.
Qed.

Lemma binary32_mul_neg_l (x y : float) : mul (SFopp x) y = SFopp (mul x y).
Proof.
  unfold mul, SFmul.
  destruct x as [sx|sx| |sx mx ex], y as [sy|sy| |sy my ey]; cbn [SFopp];
    try reflexivity; try (now destruct sx, sy).
  rewrite <- binary_round_aux_opp. now destruct sx, sy.
Qed.

Lemma binary32_sub_neg_r (x y : float) : sub x (SFopp y) = add x y.
Proof.
  unfold sub, add, SFsub, SFadd.
  destruct x as [sx|sx| |sx mx ex], y as [sy|sy| |sy my ey]; cbn [SFopp];
    try reflexivity; now destruct sx, sy.
Qed.

Lemma binary32_add_neg_r (x y : float) : add x (SFopp y) = sub x y.
Proof.
  unfold sub, add, SFsub, SFadd.
  destruct x as [sx|sx| |sx mx ex], y as [sy|sy| |sy my ey]; cbn [SFopp];
    try reflexivity; now destruct sx, sy.
Qed.

End Binary32.

#[export] Instance binary32 : FloatArith Binary32.float := {
  f_lit := Binary32.lit;
  f_of_uint := Binary32.of_Z;
  f_add := Binary32.add;
  f_sub := Binary32.sub;
  f_mul := Binary32.mul;
  f_div := Binary32.div;
  f_neg := SFopp;
  f_lt := Binary32.ltb;
  f_roundf := Binary32.roundf;
  f_isnan := Binary32.isnan;
  f_isinf := Binary32.isinf;
  f_copysign := Binary32.copysign;
  f_infinity := Binary32.infinity;
  f_mul_comm := Binary32.binary32_mul_comm;
  f_mul_neg_l := Binary32.binary32_mul_neg_l;
  f_sub_neg_r := Binary32.binary32_sub_neg_r;
  f_add_neg_r := Binary32.binary32_add_neg_r
}.

(** ** Complex samples

    The output type TO and the input type TI are [float complex]; the
    coefficient type TC is [float]. *)

Record complex (F : Type) : Type := Cx { re : F; im : F }.

Arguments Cx {F} re im.
Arguments re {F} c.
Arguments im {F} c.

Section ComplexOps.
Context {F : Type} `{FloatArith F}.

Definition czero : complex F := Cx (f_lit 0 1) (f_lit 0 1).

Definition conjf (z : complex F) : complex F := Cx (re z) (f_neg (im z)).

Definition crealf (z : complex F) : F := re z.

Definition cadd (x y : complex F) : complex F :=
  Cx (f_add (re x) (re y)) (f_add (im x) (im y)).

(** The product of two [float complex] values, [z * w], as C defines it
    (ISO C, annex G.5.1; the compiler's [__mulsc3]): the parts are
    [ac - bd] and [ad + bc], and when both come out as NaN the
    infinities that the operands or the four products held are
    recovered.

    [COPYSIGN(isinf(x) ? 1 : 0, x)]: *)
Definition box (x : F) : F :=
  f_copysign (if f_isinf x then f_lit 1 1 else f_lit 0 1) x.

(** [if (isnan(x)) x = COPYSIGN(0, x);] *)
Definition nan_to_zero (x : F) : F :=
  if f_isnan x then f_copysign (f_lit 0 1) x else x.

(** The operands with which the product is recalculated, if it is. *)
Definition recover_infinities (a b c d : F) : option (F * F * F * F) :=
  let ac := f_mul a c in
  let bd := f_mul b d in
  let ad := f_mul a d in
  let bc := f_mul b c in
  let st := (a, b, c, d, false) in
  let st :=
    let '(a, b, c, d, recalc) := st in
    if f_isinf a || f_isinf b then
      (* z is infinite *)
      (box a, box b, nan_to_zero c, nan_to_zero d, true)
    else st in
  let st :=
    let '(a, b, c, d, recalc) := st in
    if f_isinf c || f_isinf d then
      (* w is infinite *)
      (nan_to_zero a, nan_to_zero b, box c, box d, true)
    else st in
  let st :=
    let '(a, b, c, d, recalc) := st in
    if negb recalc
       && (f_isinf ac || f_isinf bd || f_isinf ad || f_isinf bc) then
      (* an infinity from overflow *)
      (nan_to_zero a, nan_to_zero b, nan_to_zero c, nan_to_zero d, true)
    else st in
  let '(a, b, c, d, recalc) := st in
  if recalc then Some (a, b, c, d) else None.

Definition cmul (z w : complex F) : complex F :=
  let a := re z in
  let b := im z in
  let c := re w in
  let d := im w in
  let x := f_sub (f_mul a c) (f_mul b d) in
  let y := f_add (f_mul a d) (f_mul b c) in
  if f_isnan x && f_isnan y then
    match recover_infinities a b c d with
    | Some (a, b, c, d) =>
        Cx (f_mul f_infinity (f_sub (f_mul a c) (f_mul b d)))
           (f_mul f_infinity (f_add (f_mul a d) (f_mul b c)))
    | None => Cx x y
    end
  else Cx x y.

(** a complex number divided by a [float] *)
Definition cdiv_real (z : complex F) (d : F) : complex F :=
  Cx (f_div (re z) d) (f_div (im z) d).

(** a [float] coefficient times a complex sample *)
Definition cscale (c : F) (z : complex F) : complex F :=
  Cx (f_mul c (re z)) (f_mul c (im z)).

End ComplexOps.

(** ** The polyphase filter bank, as the synchronizer uses it

    [firpfb_create n h h_len], [firpfb_push], [firpfb_execute bank i]
    and [firpfb_clear] stand for FIRPFB(_create), FIRPFB(_push),
    FIRPFB(_execute) and FIRPFB(_clear); their code is not in
    [symsync.c]. *)

Class FirPfb (F B : Type) : Type := {
  firpfb_create : Z -> list F -> Z -> B;
  firpfb_push : B -> complex F -> B;
  firpfb_execute : B -> Z -> complex F;
  firpfb_clear : B -> B
}.

(** ** The synchronizer object: [struct SYMSYNC(_s)] *)

Section Symsync.
Context {F : Type} {FA : FloatArith F} {B : Type} {PFB : FirPfb F B}.

Record symsync : Type := {
  h_len : Z;                (* matched filter length *)
  k : Z;                    (* samples/symbol (input) *)
  k_out : Z;                (* samples/symbol (output) *)
  decim_counter : Z;        (* decimation counter *)
  is_locked : bool;         (* synchronizer locked flag *)
  r : F;                    (* rate *)
  b : Z;                    (* filterbank index *)
  del : F;                  (* fractional delay step *)
  tau : F;                  (* accumulated timing phase *)
  bf : F;                   (* soft filterbank index *)
  alpha : F;                (* percent of old error sample to retain *)
  beta : F;                 (* percent of new error sample to retain *)
  q : F;                    (* instantaneous timing error estimate *)
  q_hat : F;                (* filtered timing error estimate *)
  q_prime : F;              (* buffered timing error estimate *)
  npfb : Z;                 (* number of filters in the bank *)
  mf : B;                   (* matched filter *)
  dmf : B                   (* derivative matched filter *)
}.

(** Field updates, one per field the code assigns. *)

Definition set_h_len (v : Z) (s : symsync) : symsync :=
  Build_symsync v (k s) (k_out s) (decim_counter s) (is_locked s) (r s)
    (b s) (del s) (tau s) (bf s) (alpha s) (beta s) (q s) (q_hat s)
    (q_prime s) (npfb s) (mf s) (dmf s).

Definition set_k (v : Z) (s : symsync) : symsync :=
  Build_symsync (h_len s) v (k_out s) (decim_counter s) (is_locked s)
    (r s) (b s) (del s) (tau s) (bf s) (alpha s) (beta s) (q s) (q_hat s)
    (q_prime s) (npfb s) (mf s) (dmf s).

Definition set_k_out (v : Z) (s : symsync) : symsync :=
  Build_symsync (h_len s) (k s) v (decim_counter s) (is_locked s) (r s)
    (b s) (del s) (tau s) (bf s) (alpha s) (beta s) (q s) (q_hat s)
    (q_prime s) (npfb s) (mf s) (dmf s).

Definition set_decim_counter (v : Z) (s : symsync) : symsync :=
  Build_symsync (h_len s) (k s) (k_out s) v (is_locked s) (r s) (b s)
    (del s) (tau s) (bf s) (alpha s) (beta s) (q s) (q_hat s) (q_prime s)
    (npfb s) (mf s) (dmf s).

Definition set_is_locked (v : bool) (s : symsync) : symsync :=
  Build_symsync (h_len s) (k s) (k_out s) (decim_counter s) v (r s) (b s)
    (del s) (tau s) (bf s) (alpha s) (beta s) (q s) (q_hat s) (q_prime s)
    (npfb s) (mf s) (dmf s).

Definition set_r (v : F) (s : symsync) : symsync :=
  Build_symsync (h_len s) (k s) (k_out s) (decim_counter s) (is_locked s)
    v (b s) (del s) (tau s) (bf s) (alpha s) (beta s) (q s) (q_hat s)
    (q_prime s) (npfb s) (mf s) (dmf s).

Definition set_b (v : Z) (s : symsync) : symsync :=
  Build_symsync (h_len s) (k s) (k_out s) (decim_counter s) (is_locked s)
    (r s) v (del s) (tau s) (bf s) (alpha s) (beta s) (q s) (q_hat s)
    (q_prime s) (npfb s) (mf s) (dmf s).

Definition set_del (v : F) (s : symsync) : symsync :=
  Build_symsync (h_len s) (k s) (k_out s) (decim_counter s) (is_locked s)
    (r s) (b s) v (tau s) (bf s) (alpha s) (beta s) (q s) (q_hat s)
    (q_prime s) (npfb s) (mf s) (dmf s).

Definition set_tau (v : F) (s : symsync) : symsync :=
  Build_symsync (h_len s) (k s) (k_out s) (decim_counter s) (is_locked s)
    (r s) (b s) (del s) v (bf s) (alpha s) (beta s) (q s) (q_hat s)
    (q_prime s) (npfb s) (mf s) (dmf s).

Definition set_bf (v : F) (s : symsync) : symsync :=
  Build_symsync (h_len s) (k s) (k_out s) (decim_counter s) (is_locked s)
    (r s) (b s) (del s) (tau s) v (alpha s) (beta s) (q s) (q_hat s)
    (q_prime s) (npfb s) (mf s) (dmf s).

Definition set_alpha (v : F) (s : symsync) : symsync :=
  Build_symsync (h_len s) (k s) (k_out s) (decim_counter s) (is_locked s)
    (r s) (b s) (del s) (tau s) (bf s) v (beta s) (q s) (q_hat s)
    (q_prime s) (npfb s) (mf s) (dmf s).

Definition set_beta (v : F) (s : symsync) : symsync :=
  Build_symsync (h_len s) (k s) (k_out s) (decim_counter s) (is_locked s)
    (r s) (b s) (del s) (tau s) (bf s) (alpha s) v (q s) (q_hat s)
    (q_prime s) (npfb s) (mf s) (dmf s).

Definition set_q (v : F) (s : symsync) : symsync :=
  Build_symsync (h_len s) (k s) (k_out s) (decim_counter s) (is_locked s)
    (r s) (b s) (del s) (tau s) (bf s) (alpha s) (beta s) v (q_hat s)
    (q_prime s) (npfb s) (mf s) (dmf s).

Definition set_q_hat (v : F) (s : symsync) : symsync :=
  Build_symsync (h_len s) (k s) (k_out s) (decim_counter s) (is_locked s)
    (r s) (b s) (del s) (tau s) (bf s) (alpha s) (beta s) (q s) v
    (q_prime s) (npfb s) (mf s) (dmf s).

Definition set_q_prime (v : F) (s : symsync) : symsync :=
  Build_symsync (h_len s) (k s) (k_out s) (decim_counter s) (is_locked s)
    (r s) (b s) (del s) (tau s) (bf s) (alpha s) (beta s) (q s) (q_hat s)
    v (npfb s) (mf s) (dmf s).

Definition set_npfb (v : Z) (s : symsync) : symsync :=
  Build_symsync (h_len s) (k s) (k_out s) (decim_counter s) (is_locked s)
    (r s) (b s) (del s) (tau s) (bf s) (alpha s) (beta s) (q s) (q_hat s)
    (q_prime s) v (mf s) (dmf s).

Definition set_mf (v : B) (s : symsync) : symsync :=
  Build_symsync (h_len s) (k s) (k_out s) (decim_counter s) (is_locked s)
    (r s) (b s) (del s) (tau s) (bf s) (alpha s) (beta s) (q s) (q_hat s)
    (q_prime s) (npfb s) v (dmf s).

Definition set_dmf (v : B) (s : symsync) : symsync :=
  Build_symsync (h_len s) (k s) (k_out s) (decim_counter s) (is_locked s)
    (r s) (b s) (del s) (tau s) (bf s) (alpha s) (beta s) (q s) (q_hat s)
    (q_prime s) (npfb s) (mf s) v.

(** *** Reading a C array

    An array argument is a list; a read outside of it is undefined. *)

Definition read {A : Type} (a : list A) (i : Z) : result A :=
  if (0 <=? i) && (i <? Z.of_nat (length a))
  then match nth_error a (Z.to_nat i) with
       | Some v => Ok v
       | None => Undefined
       end
  else Undefined.

(** *** SYMSYNC(_reset), SYMSYNC(_clear) *)

Definition reset (_q : symsync) : symsync :=
  let _q := set_mf (firpfb_clear (mf _q)) _q in
  let _q := set_b 0 _q in
  let _q := set_tau (f_lit 0 1) _q in
  let _q := set_bf (f_lit 0 1) _q in
  let _q := set_q (f_lit 0 1) _q in
  let _q := set_q_hat (f_lit 0 1) _q in
  let _q := set_q_prime (f_lit 0 1) _q in
  set_decim_counter 0 _q.

Definition clear (_q : symsync) : symsync := reset _q.

(** *** SYMSYNC(_lock), SYMSYNC(_unlock) *)

Definition lock (_q : symsync) : symsync := set_is_locked true _q.

Definition unlock (_q : symsync) : symsync := set_is_locked false _q.

(** *** SYMSYNC(_setrate) *)

Definition setrate (_q : symsync) (_rate : F) : symsync :=
  let _q := set_r _rate _q in
  set_del (f_div (f_lit 1 1) (r _q)) _q.

(** *** SYMSYNC(_set_lf_bw) *)

Definition set_lf_bw (_q : symsync) (_bt : F) : result symsync :=
  if f_lt _bt (f_lit 0 1) || f_gt _bt (f_lit 1 1) then Fatal
  else
    let _q := set_alpha (f_sub (f_lit 1 1) _bt) _q in
    let _q := set_beta (f_mul (f_lit 22 100) _bt) _q in
    Ok _q.

(** *** SYMSYNC(_set_output_rate) *)

Definition set_output_rate (_q : symsync) (_k_out : Z) : result symsync :=
  if _k_out =? 0 then Fatal
  else
    let _q := set_k_out _k_out _q in
    let _q := set_r (f_div (f_of_uint (k_out _q)) (f_of_uint (k _q))) _q in
    let _q := set_del (f_div (f_lit 1 1) (r _q)) _q in
    Ok _q.

Definition get_tau (_q : symsync) : F := tau _q.

(** *** The derivative filter of SYMSYNC(_create)

    [dh_coeff] is the body of the loop at index [i], [compute_dh] the
    loop. *)

Definition dh_coeff (_npfb : Z) (_h : list F) (_h_len : Z) (i : Z)
  : result F :=
  d <- (if i =? 0 then
          x <- read _h (i + 1) ;; y <- read _h (_h_len - 1) ;;
          Ok (f_sub x y)
        else if i =? _h_len - 1 then
          x <- read _h 0 ;; y <- read _h (i - 1) ;;
          Ok (f_sub x y)
        else
          x <- read _h (i + 1) ;; y <- read _h (i - 1) ;;
          Ok (f_sub x y)) ;;
  Ok (f_mul d (f_div (f_of_uint _npfb) (f_lit 16 1))).

Fixpoint dh_loop (_npfb : Z) (_h : list F) (_h_len : Z)
    (i : Z) (count : nat) : result (list F) :=
  match count with
  | O => Ok []
  | S count' =>
      d <- dh_coeff _npfb _h _h_len i ;;
      rest <- dh_loop _npfb _h _h_len (i + 1) count' ;;
      Ok (d :: rest)
  end.

Definition compute_dh (_npfb : Z) (_h : list F) (_h_len : Z)
  : result (list F) :=
  dh_loop _npfb _h _h_len 0 (Z.to_nat _h_len).

(** *** SYMSYNC(_create)

    The object is allocated uninitialised: [create] is given the
    content of the fresh memory, [garbage], and assigns every field
    before it returns. *)

Definition create_from (garbage : symsync)
    (_k _npfb : Z) (_h : list F) (_h_len : Z) : result symsync :=
  if _k <? 2 then Fatal
  else if _h_len =? 0 then Fatal
  else if _npfb =? 0 then Fatal
  else
    let _q := garbage in
    let _q := set_k _k _q in
    let _q := set_npfb _npfb _q in
    let _q := set_tau (f_lit 0 1) _q in
    let _q := set_bf (f_lit 0 1) _q in
    let _q := set_b 0 _q in
    _q <- set_output_rate _q 1 ;;
    let _q := set_h_len (wrap_uint (_h_len - 1) / npfb _q) _q in
    dh <- compute_dh _npfb _h _h_len ;;
    let _q := set_mf (firpfb_create (npfb _q) _h _h_len) _q in
    let _q := set_dmf (firpfb_create (npfb _q) dh _h_len) _q in
    let _q := clear _q in
    _q <- set_lf_bw _q (f_lit 1 100) ;;
    _q <- set_output_rate _q 1 ;;
    Ok (unlock _q).

(** Some content of fresh memory. *)
Definition blank : symsync :=
  let z := f_lit 0 1 in
  let bank := firpfb_create 0 [] 0 in
  Build_symsync 0 0 0 0 false z 0 z z z z z z z z 0 bank bank.

Definition create : Z -> Z -> list F -> Z -> result symsync :=
  create_from blank.

(** *** SYMSYNC(_create_rnyquist)

    [design] stands for [design_rnyquist_filter], whose code is not in
    [symsync.c]: given the filter type, [_k*_npfb], [_m], [_beta] and
    the offset 0 it fills the array [Hf]; here it returns what it
    wrote.  [copy_coeffs] is the loop [H[i] = Hf[i]]. *)

Variable design : Z -> Z -> Z -> F -> F -> list F.

Fixpoint copy_coeffs (Hf : list F) (i : Z) (count : nat)
  : result (list F) :=
  match count with
  | O => Ok []
  | S count' =>
      v <- read Hf i ;;
      rest <- copy_coeffs Hf (i + 1) count' ;;
      Ok (v :: rest)
  end.

Definition create_rnyquist_from (garbage : symsync)
    (_type : Z) (_k _m : Z) (_beta : F) (_npfb : Z) : result symsync :=
  if _k <? 2 then Fatal
  else if _m =? 0 then Fatal
  else if f_lt _beta (f_lit 0 1) || f_gt _beta (f_lit 1 1) then Fatal
  else
    let H_len := wrap_uint (2 * _npfb * _k * _m + 1) in
    let Hf := design _type (wrap_uint (_k * _npfb)) _m _beta (f_lit 0 1) in
    H <- copy_coeffs Hf 0 (Z.to_nat H_len) ;;
    create_from garbage _k _npfb H H_len.

Definition create_rnyquist : Z -> Z -> Z -> F -> Z -> result symsync :=
  create_rnyquist_from blank.

(** *** SYMSYNC(_advance_internal_loop) *)

Definition advance_internal_loop (_q : symsync) (_mf _dmf : complex F)
  : symsync :=
  let _q := set_q (crealf (cmul (conjf _mf) _dmf)) _q in
  let _q :=
    if f_gt (q _q) (f_lit 1 1) then set_q (f_lit 1 1) _q
    else if f_lt (q _q) (f_neg (f_lit 1 1)) then set_q (f_neg (f_lit 1 1)) _q
    else _q in
  let _q :=
    set_q_hat (f_add (f_mul (q _q) (beta _q))
                     (f_mul (q_prime _q) (alpha _q))) _q in
  let _q := set_q_prime (q_hat _q) _q in
  set_del (f_add (f_div (f_of_uint (k _q)) (f_of_uint (k_out _q)))
                 (q_hat _q)) _q.

(** *** SYMSYNC(_step)

    Every call of FIRPFB(_execute) is recorded with the bank and the
    index it is given. *)

Inductive bank : Type := MF | DMF.

Record event : Type := Evaluate { ev_bank : bank; ev_index : Z }.

(** [_y[n] = v]: the cells before [n] are the outputs written so far. *)
Definition store (y : list (complex F)) (n : Z) (v : complex F)
  : list (complex F) :=
  firstn (Z.to_nat n) y ++ [v].

(** The state of the loop: the object, the output array and [n]. *)
Definition loop_state : Type := (symsync * list (complex F) * Z)%type.

(** The end of the loop body: count the output and advance the phase. *)
Definition advance_phase (_q : symsync) (y : list (complex F)) (n : Z)
  : result loop_state :=
  let _q := set_decim_counter (wrap_uint (decim_counter _q + 1)) _q in
  let _q := set_tau (f_add (tau _q) (del _q)) _q in
  let _q := set_bf (f_mul (tau _q) (f_of_uint (npfb _q))) _q in
  match int_of_roundf (bf _q) with
  | Some z => Ok (set_b z _q, y, wrap_uint (n + 1))
  | None => Undefined
  end.

(** One pass through the body of [while (_q->b < _q->npfb)]. *)
Definition emit_body (_q : symsync) (y : list (complex F)) (n : Z)
  : list event * result loop_state :=
  let vmf := firpfb_execute (mf _q) (b _q) in
  let y := store y n (cdiv_real vmf (f_of_uint (k _q))) in
  if decim_counter _q =? k_out _q then
    let _q := set_decim_counter 0 _q in
    if is_locked _q then
      (* continue *)
      ([Evaluate MF (b _q)], Ok (_q, y, n))
    else
      let vdmf := firpfb_execute (dmf _q) (b _q) in
      let _q' := advance_internal_loop _q vmf vdmf in
      ([Evaluate MF (b _q); Evaluate DMF (b _q)], advance_phase _q' y n)
  else
    ([Evaluate MF (b _q)], advance_phase _q y n).

(** The loop test: [_q->b] is an [int] and [_q->npfb] an
    [unsigned int], so the comparison is made on [unsigned int]. *)
Definition loop_test (_q : symsync) : bool :=
  uint_of_int (b _q) <? npfb _q.

Fixpoint emit_loop (fuel : nat) (st : loop_state)
  : list event * result loop_state :=
  let '(_q, y, n) := st in
  if loop_test _q then
    match fuel with
    | O => ([], OutOfFuel)
    | S fuel' =>
        match emit_body _q y n with
        | (evs, Ok st') =>
            let '(evs', res) := emit_loop fuel' st' in (evs ++ evs', res)
        | (evs, other) => (evs, other)
        end
    end
  else ([], Ok st).

(** The three assignments after the loop. *)
Definition symbol_wrap (_q : symsync) : symsync :=
  let _q := set_tau (f_sub (tau _q) (f_lit 1 1)) _q in
  let _q := set_bf (f_sub (bf _q) (f_of_uint (npfb _q))) _q in
  set_b (int_sub_uint (b _q) (npfb _q)) _q.

Definition push_both (_q : symsync) (_x : complex F) : symsync :=
  let _q := set_mf (firpfb_push (mf _q) _x) _q in
  set_dmf (firpfb_push (dmf _q) _x) _q.

(** [step fuel _q _x] is the trace of bank evaluations and, when the
    call returns, the object after it and the [*_num_written] outputs
    written to [_y]. *)
Definition step (fuel : nat) (_q : symsync) (_x : complex F)
  : list event * result (symsync * list (complex F)) :=
  let '(evs, res) := emit_loop fuel (push_both _q _x, [], 0) in
  (evs, st <- res ;;
        let '(_q', y, n) := st in
        Ok (symbol_wrap _q', firstn (Z.to_nat n) y)).

(** *** SYMSYNC(_execute) *)

Fixpoint execute (fuel : nat) (_q : symsync) (_x : list (complex F))
  : list event * result (symsync * list (complex F)) :=
  match _x with
  | [] => ([], Ok (_q, []))
  | x :: rest =>
      match step fuel _q x with
      | (evs, Ok (_q', y)) =>
          let '(evs', res) := execute fuel _q' rest in
          (evs ++ evs',
           st <- res ;; let '(_q'', y') := st in Ok (_q'', y ++ y'))
      | (evs, Fatal) => (evs, Fatal)
      | (evs, Undefined) => (evs, Undefined)
      | (evs, OutOfFuel) => (evs, OutOfFuel)
      end
  end.

End Symsync.

Arguments symsync : clear implicits.
Arguments loop_state : clear implicits.

(** ** A polyphase filter bank *)

Module SpecFirPfb.
Section Bank.
Context {F : Type} `{FloatArith F}.

(** Modelled from the spec: the polyphase filter bank FIRPFB, whose
    code is not in [symsync.c].  A bank over a prototype [h] holds
    [N] sub-filters [h_b[n] = h[n*N + b]] of length
    [L = (prototype_len - 1) / N] and one delay line of length [L]
    shared by all of them. *)
Record bank : Type := {
  num_filters : Z;
  prototype : list F;
  sub_len : nat;
  delay : list (complex F)
}.

(** Modelled from the spec: FIRPFB(_create), the polyphase
    decomposition of the prototype with an all-zero delay line. *)
Definition create (n : Z) (h : list F) (h_len : Z) : bank :=
  let L := Z.to_nat ((h_len - 1) / n) in
  {| num_filters := n;
     prototype := firstn (Z.to_nat h_len) h;
     sub_len := L;
     delay := repeat czero L |}.

(** Modelled from the spec: FIRPFB(_push), [push(x)] shifts [x] into
    the shared delay line of length [L]. *)
Definition push (bk : bank) (x : complex F) : bank :=
  {| num_filters := num_filters bk;
     prototype := prototype bk;
     sub_len := sub_len bk;
     delay := firstn (sub_len bk) (x :: delay bk) |}.

(** the coefficient [h_b[n] = h[n*N + b]] *)
Definition sub_coeff (bk : bank) (i : Z) (n : nat) : F :=
  nth (Z.to_nat (Z.of_nat n * num_filters bk + i)) (prototype bk)
      (f_lit 0 1).

(** Modelled from the spec: FIRPFB(_execute), [execute(b, &y)]
    computes [y = sum_{n=0}^{L-1} h_b[n] * delay[n]] without
    consuming an input. *)
Definition execute (bk : bank) (i : Z) : complex F :=
  fold_left
    (fun acc n =>
       cadd acc (cscale (sub_coeff bk i n) (nth n (delay bk) czero)))
    (seq 0 (sub_len bk)) czero.

(** Modelled from the spec: FIRPFB(_clear), [clear()] zeroes the
    delay line. *)
Definition clear (bk : bank) : bank :=
  {| num_filters := num_filters bk;
     prototype := prototype bk;
     sub_len := sub_len bk;
     delay := repeat czero (sub_len bk) |}.

End Bank.
End SpecFirPfb.

#[export] Instance spec_firpfb {F : Type} `{FloatArith F}
  : FirPfb F (@SpecFirPfb.bank F) := {
  firpfb_create := SpecFirPfb.create;
  firpfb_push := SpecFirPfb.push;
  firpfb_execute := SpecFirPfb.execute;
  firpfb_clear := SpecFirPfb.clear
}.

(** * The vocabulary of the properties *)

Section Vocabulary.
Context {F : Type} {FA : FloatArith F} {B : Type} {PFB : FirPfb F B}.

(** What a pass through the loop body leaves as it found it. *)
Definition same_configuration (s s' : symsync F B) : Prop :=
  npfb s' = npfb s /\ k s' = k s /\ k_out s' = k_out s /\
  is_locked s' = is_locked s /\ alpha s' = alpha s /\ beta s' = beta s /\
  mf s' = mf s /\ dmf s' = dmf s /\ h_len s' = h_len s /\ r s' = r s.

(** The clamp to [-1, 1], as [advance_internal_loop] writes it. *)
Definition clip (x : F) : F :=
  if f_gt x (f_lit 1 1) then f_lit 1 1
  else if f_lt x (f_neg (f_lit 1 1)) then f_neg (f_lit 1 1)
  else x.

(** The loop variables and the lock are in [s'] what they are in [s]. *)
Definition loop_frozen (s s' : symsync F B) : Prop :=
  q s' = q s /\ q_hat s' = q_hat s /\ q_prime s' = q_prime s /\
  del s' = del s /\ is_locked s' = is_locked s.

(** [a[i]], for an index within the array *)
Definition h_at (a : list F) (i : Z) : F := nth (Z.to_nat i) a (f_lit 0 1).

(** The scaling factor [(float)_npfb / 16.0f]. *)
Definition dh_scale (N : Z) : F := f_div (f_of_uint N) (f_lit 16 1).

(** The loop bandwidth [0.01f] that [create] sets passes the
    validation of [set_lf_bw]. *)
Definition default_bandwidth_valid : Prop :=
  f_lt (f_lit 1 100) (f_lit 0 1) || f_gt (f_lit 1 100) (f_lit 1 1) = false.

Variable design : Z -> Z -> Z -> F -> F -> list F.

(** The states of a synchronizer that its public operations produce:
    it is constructed by [create] or [create_rnyquist] and then goes
    through [step], [execute], [set_lf_bw], [set_output_rate], [lock],
    [unlock] and [reset]. *)
Inductive reachable : symsync F B -> Prop :=
| reach_create _k _npfb _h _h_len s :
    create _k _npfb _h _h_len = Ok s -> reachable s
| reach_create_rnyquist _type _k _m _beta _npfb s :
    create_rnyquist design _type _k _m _beta _npfb = Ok s -> reachable s
| reach_step fuel s x s' ys :
    reachable s -> snd (step fuel s x) = Ok (s', ys) -> reachable s'
| reach_execute fuel s xs s' ys :
    reachable s -> snd (execute fuel s xs) = Ok (s', ys) -> reachable s'
| reach_set_lf_bw s _bt s' :
    reachable s -> set_lf_bw s _bt = Ok s' -> reachable s'
| reach_set_output_rate s _k_out s' :
    reachable s -> in_uint _k_out -> set_output_rate s _k_out = Ok s' ->
    reachable s'
| reach_lock s : reachable s -> reachable (lock s)
| reach_unlock s : reachable s -> reachable (unlock s)
| reach_reset s : reachable s -> reachable (reset s).

End Vocabulary.

(** With the bank of the specification: the two banks of the object
    hold the same delay line. *)
Definition banks_agree {F : Type} (s : symsync F (@SpecFirPfb.bank F))
  : Prop :=
  SpecFirPfb.delay (mf s) = SpecFirPfb.delay (dmf s) /\
  SpecFirPfb.sub_len (mf s) = SpecFirPfb.sub_len (dmf s).

(** In single precision: the same value, or two zeros (of any signs). *)
Definition same_but_zero_sign (x y : Binary32.float) : Prop :=
  x = y \/ exists s s', x = S754_zero s /\ y = S754_zero s'.

(** ** The outputs and the phase of a run *)

Section RunVocabulary.
Context {F : Type} {FA : FloatArith F} {B : Type} {PFB : FirPfb F B}.

(** The indices at which a trace evaluates the matched bank, in order. *)
Definition mf_indices (evs : list event) : list Z :=
  map ev_index
      (filter (fun ev => match ev_bank ev with MF => true | DMF => false end)
              evs).

(** The output sample that the loop body stores for the index [i]:
    [mf / (float)(_q->k)] with [mf] the matched bank's output at [i]. *)
Definition scaled_output (s : symsync F B) (i : Z) : complex F :=
  cdiv_real (firpfb_execute (mf s) i) (f_of_uint (k s)).

(** [tau] after [j] calls of [step], as far as the three assignments
    after the loop go: [tau -= 1.0f], [j] times. *)
Definition wrap_tau (j : nat) (t : F) : F :=
  Nat.iter j (fun t => f_sub t (f_lit 1 1)) t.

(** [bf] after [j] times [bf -= (float)npfb]. *)
Definition wrap_bf (j : nat) (N : Z) (t : F) : F :=
  Nat.iter j (fun t => f_sub t (f_of_uint N)) t.

(** What [execute] never writes. *)
Definition same_setup (s s' : symsync F B) : Prop :=
  k s' = k s /\ k_out s' = k_out s /\ npfb s' = npfb s /\
  h_len s' = h_len s /\ r s' = r s /\ alpha s' = alpha s /\
  beta s' = beta s /\ is_locked s' = is_locked s.

(** The state of the loop of [step] after [j] passes through its body,
    each entered with the loop test true. *)
Fixpoint passes (j : nat) (st : loop_state F B) : option (loop_state F B) :=
  match j with
  | O => Some st
  | S j' =>
      let '(s, y, n) := st in
      if loop_test s then
        match snd (emit_body s y n) with
        | Ok st' => passes j' st'
        | _ => None
        end
      else None
  end.

End RunVocabulary.

(** ** Runs in single precision, with the bank of the specification *)

Module Runs.

Definition float : Type := Binary32.float.
Definition sync : Type := symsync float (@SpecFirPfb.bank float).
Definition fl (n : Z) (d : positive) : float := Binary32.lit n d.

(** The rational that a finite [float] is. *)
Definition to_Q (x : float) : option Q :=
  match x with
  | S754_zero _ => Some (0 # 1)
  | S754_finite s m e =>
      let mag :=
        match e with
        | Zneg p => Zpos m # (2 ^ p)
        | _ => (Zpos m * 2 ^ e) # 1
        end in
      Some (if s then Qopp mag else mag)
  | _ => None
  end.

(** A prototype of three coefficients for a bank of one sub-filter, and
    an input sample. *)
Definition h3 : list float := [fl 1 1; fl 0 1; fl 1 1].
Definition x4 : complex float := Cx (fl 4 1) (fl 0 1).

(** A designer for [create_rnyquist] (no run below calls it). *)
Definition flat_design (_type _k _m : Z) (_beta _dt : float) : list float :=
  repeat (fl 1 1) (Z.to_nat (2 * _k * _m + 1)).

Definition object (r : result sync) : sync :=
  match r with Ok s => s | _ => blank end.

Definition after (r : result (sync * list (complex float))) : sync :=
  match r with Ok (s, _) => s | _ => blank end.

Definition written (r : result (sync * list (complex float)))
  : list (complex float) :=
  match r with Ok (_, y) => y | _ => [] end.

Definition created : sync := Eval vm_compute in object (create 2 1 h3 3).

(** Output rate 10 and loop bandwidth 1, then three input samples. *)
Definition upsampling : sync :=
  Eval vm_compute in object (set_output_rate created 10).
Definition wide : sync :=
  Eval vm_compute in object (set_lf_bw upsampling (fl 1 1)).
Definition stalled : sync :=
  Eval vm_compute in after (snd (execute 100 wide [x4; x4; x4])).

(** One step. *)
Definition stepped : sync :=
  Eval vm_compute in after (snd (step 100 created x4)).
Definition stepped_out : list (complex float) :=
  Eval vm_compute in written (snd (step 100 created x4)).

(** A loop bandwidth of about 0.43, then 58 input samples. *)
Definition bt43 : float := fl 14407945 33554432.
Definition tuned : sync := Eval vm_compute in object (set_lf_bw created bt43).
Definition drifted : sync :=
  Eval vm_compute in after (snd (execute 100 tuned (repeat x4 58))).

(** From there, a loop bandwidth of about 0.00000045. *)
Definition slight : float := fl 15728638 35184372088832.
Definition narrow : sync :=
  Eval vm_compute in object (set_lf_bw drifted slight).

(** Eleven samples per symbol in and fifty out, loop bandwidth 1, then
    eleven input samples; [spinning] is the object three passes into
    the loop of the next call of [step]. *)
Definition coarse : sync := Eval vm_compute in object (create 11 1 h3 3).
Definition coarse_paced : sync :=
  Eval vm_compute in object (set_output_rate coarse 50).
Definition coarse_wide : sync :=
  Eval vm_compute in object (set_lf_bw coarse_paced (fl 1 1)).
Definition poised : sync :=
  Eval vm_compute in after (snd (execute 100 coarse_wide (repeat x4 11))).
Definition spinning : sync :=
  Eval vm_compute in
    match passes 3 (push_both poised x4, [], 0) with
    | Some (s, _, _) => s
    | None => blank
    end.

(** A locked run. *)
Definition held : sync :=
  Eval vm_compute in after (snd (execute 100 (lock tuned) (repeat x4 6))).
Definition held_out : list (complex float) :=
  Eval vm_compute in written (snd (execute 100 (lock tuned) (repeat x4 6))).

End Runs.

(** ** Further runs *)

Module MoreRuns.
Import Runs.

(** Two input samples from the new object: the index is back at 0 and
    the decimation counter has reached k_out. *)
Definition twice : sync :=
  Eval vm_compute in after (snd (execute 100 created [x4; x4])).

(** One input sample at output rate 10: three outputs. *)
Definition paced : sync :=
  Eval vm_compute in after (snd (step 100 wide x4)).
Definition paced_out : list (complex float) :=
  Eval vm_compute in written (snd (step 100 wide x4)).

(** One input sample, locked. *)
Definition kept : sync :=
  Eval vm_compute in after (snd (step 100 (lock tuned) x4)).
Definition kept_out : list (complex float) :=
  Eval vm_compute in written (snd (step 100 (lock tuned) x4)).

(** A matched-filter output with an infinite and a NaN part, and the
    derivative output 1 + 0i. *)
Definition lost : complex float := Cx (S754_infinity false) S754_nan.
Definition unit : complex float := Cx (fl 1 1) (fl 0 1).

End MoreRuns.

(** * Properties *)

(** ** Machine integers *)

Lemma uint_of_int_range (z : Z) : 0 <= uint_of_int z < modulus.
Proof. unfold uint_of_int, modulus. apply Z.mod_pos_bound. lia. Qed.

Lemma in_intb_spec (z : Z) : in_intb z = true <-> in_int z.
Proof.
  unfold in_intb, in_int. rewrite andb_true_iff, !Z.leb_le. tauto.
Qed.

Lemma int_of_uint_in_int (z : Z) : in_int (int_of_uint z).
Proof.
  unfold int_of_uint, in_int, min_int, max_int.
  pose proof (Z.mod_pos_bound z modulus) as Hm.
  unfold modulus, half_modulus in *.
  destruct (Z.ltb_spec (z mod 2 ^ 32) (2 ^ 31)); lia.
Qed.

(** An [int] that compares below an [unsigned int] not above 2^31 is a
    non-negative [int] below it. *)
Lemma uint_lt_signed (z n : Z) :
  in_int z -> n <= half_modulus -> uint_of_int z < n -> 0 <= z < n.
Proof.
  unfold in_int, min_int, max_int, uint_of_int, modulus, half_modulus.
  intros Hz Hn Hlt.
  destruct (Z.lt_ge_cases z 0) as [Hneg|Hpos].
  - assert (E : z mod 2 ^ 32 = z + 2 ^ 32).
    { symmetry. apply Z.mod_unique with (q := -1); lia. }
    lia.
  - rewrite Z.mod_small in Hlt by lia. lia.
Qed.

(** [b -= n] is the integer subtraction whenever the difference is an
    [int]. *)
Lemma int_sub_uint_exact (z n : Z) :
  in_int z -> in_uint n -> min_int <= z - n -> int_sub_uint z n = z - n.
Proof.
  unfold in_int, in_uint, min_int, max_int, int_sub_uint, int_of_uint,
    wrap_uint, uint_of_int, modulus, half_modulus.
  intros Hz Hn Hlow.
  rewrite Z.mod_mod by lia.
  rewrite Zdiv.Zminus_mod_idemp_l.
  destruct (Z.lt_ge_cases (z - n) 0) as [Hneg|Hpos].
  - assert (E : (z - n) mod 2 ^ 32 = z - n + 2 ^ 32).
    { symmetry. apply Z.mod_unique with (q := -1); lia. }
    rewrite E.
    destruct (Z.ltb_spec (z - n + 2 ^ 32) (2 ^ 31)); lia.
  - rewrite Z.mod_small by lia.
    destruct (Z.ltb_spec (z - n) (2 ^ 31)); lia.
Qed.

Lemma int_sub_uint_congruent (z n : Z) :
  (int_sub_uint z n - (z - n)) mod modulus = 0.
Proof.
  unfold int_sub_uint, int_of_uint, wrap_uint, uint_of_int, modulus,
    half_modulus.
  rewrite Z.mod_mod by lia.
  rewrite Zdiv.Zminus_mod_idemp_l.
  destruct (Z.ltb_spec ((z - n) mod 2 ^ 32) (2 ^ 31)).
  - rewrite Zdiv.Zminus_mod_idemp_l, Z.sub_diag. reflexivity.
  - replace ((z - n) mod 2 ^ 32 - 2 ^ 32 - (z - n))
      with ((z - n) mod 2 ^ 32 - (z - n) + (-1) * 2 ^ 32) by lia.
    rewrite Zdiv.Z_mod_plus_full, Zdiv.Zminus_mod_idemp_l, Z.sub_diag.
    reflexivity.
Qed.

Section Properties.
Context {F : Type} {FA : FloatArith F} {B : Type} {PFB : FirPfb F B}.

Lemma int_of_roundf_in_int (x : F) (z : Z) :
  int_of_roundf x = Some z -> in_int z.
Proof.
  unfold int_of_roundf. destruct (f_roundf x) as [v|]; [|discriminate].
  destruct (in_intb v) eqn:E; [|discriminate].
  intros [= <-]. now apply in_intb_spec.
Qed.

(** *** The bank index at every evaluation (I2, P1) *)

Lemma same_configuration_refl (s : symsync F B) : same_configuration s s.
Proof. repeat split. Qed.

Lemma same_configuration_trans (s1 s2 s3 : symsync F B) :
  same_configuration s1 s2 -> same_configuration s2 s3 ->
  same_configuration s1 s3.
Proof.
  unfold same_configuration. intros H12 H23.
  decompose [and] H12. decompose [and] H23.
  repeat split; congruence.
Qed.

Lemma advance_phase_ok (s : symsync F B) y n s' y' n' :
  advance_phase s y n = Ok (s', y', n') ->
  same_configuration s s' /\ in_int (b s') /\
  tau s' = f_add (tau s) (del s) /\
  bf s' = f_mul (tau s') (f_of_uint (npfb s)) /\
  int_of_roundf (bf s') = Some (b s') /\
  decim_counter s' = wrap_uint (decim_counter s + 1) /\
  q s' = q s /\ q_hat s' = q_hat s /\ q_prime s' = q_prime s /\
  del s' = del s /\ y' = y /\ n' = wrap_uint (n + 1).
Proof.
  unfold advance_phase; cbn.
  destruct (int_of_roundf _) as [z|] eqn:E; [|discriminate].
  intros [= <- <- <-]; cbn.
  pose proof (int_of_roundf_in_int _ E) as Hz.
  repeat split; try reflexivity; try assumption; apply Hz.
Qed.

Lemma advance_internal_loop_configuration (s : symsync F B) u v :
  same_configuration s (advance_internal_loop s u v) /\
  b (advance_internal_loop s u v) = b s /\
  tau (advance_internal_loop s u v) = tau s /\
  bf (advance_internal_loop s u v) = bf s /\
  decim_counter (advance_internal_loop s u v) = decim_counter s.
Proof.
  unfold advance_internal_loop, same_configuration; cbn.
  destruct (f_gt _ _); cbn; [repeat split|].
  destruct (f_lt _ _); cbn; repeat split.
Qed.

Lemma emit_body_events (s : symsync F B) y n :
  Forall (fun ev => ev_index ev = b s) (fst (emit_body s y n)).
Proof.
  unfold emit_body.
  destruct (decim_counter s =? k_out s); cbn.
  - destruct (is_locked s); cbn; repeat constructor.
  - repeat constructor.
Qed.

Lemma emit_body_ok (s : symsync F B) y n s' y' n' :
  snd (emit_body s y n) = Ok (s', y', n') ->
  same_configuration s s' /\ (in_int (b s) -> in_int (b s')).
Proof.
  unfold emit_body.
  destruct (decim_counter s =? k_out s); cbn.
  - destruct (is_locked s) eqn:L; cbn.
    + intros [= <- <- <-]. split; [|auto].
      unfold same_configuration; cbn. repeat split.
    + intros H. apply advance_phase_ok in H.
      destruct H as (Hc & Hb & _). split; [|auto].
      eapply same_configuration_trans; [|exact Hc].
      pose proof (advance_internal_loop_configuration
                    (set_decim_counter 0 s)
                    (firpfb_execute (mf s) (b s))
                    (firpfb_execute (dmf s) (b s))) as (Ha & _).
      eapply same_configuration_trans; [|exact Ha].
      unfold same_configuration; cbn. repeat split.
  - intros H. apply advance_phase_ok in H.
    destruct H as (Hc & Hb & _). auto.
Qed.

(** The three ways through the loop body. *)
Lemma emit_body_cases (s : symsync F B) y n s' y' n' :
  snd (emit_body s y n) = Ok (s', y', n') ->
  let vmf := firpfb_execute (mf s) (b s) in
  let y1 := store y n (cdiv_real vmf (f_of_uint (k s))) in
  (decim_counter s = k_out s /\ is_locked s = true /\
   s' = set_decim_counter 0 s /\ y' = y1 /\ n' = n) \/
  (decim_counter s = k_out s /\ is_locked s = false /\
   advance_phase
     (advance_internal_loop (set_decim_counter 0 s) vmf
        (firpfb_execute (dmf s) (b s))) y1 n = Ok (s', y', n')) \/
  (decim_counter s <> k_out s /\ advance_phase s y1 n = Ok (s', y', n')).
Proof.
  unfold emit_body.
  destruct (Z.eqb_spec (decim_counter s) (k_out s)) as [E|E].
  - change (is_locked (set_decim_counter 0 s)) with (is_locked s).
    destruct (is_locked s); cbn [snd].
    + intros [= <- <- <-]. left. auto.
    + intros H. right. left. auto.
  - cbn [snd]. intros H. right. right. auto.
Qed.

Lemma emit_loop_indices (fuel : nat) :
  forall (s : symsync F B) y n,
    Forall (fun ev => 0 <= uint_of_int (ev_index ev) < npfb s /\
                      (in_int (b s) -> npfb s <= half_modulus ->
                       0 <= ev_index ev < npfb s))
           (fst (emit_loop fuel (s, y, n))).
Proof.
  induction fuel as [|fuel IH]; intros s y n; cbn.
  - destruct (loop_test s); constructor.
  - destruct (loop_test s) eqn:T; [|constructor].
    pose proof (emit_body_events s y n) as Hev.
    pose proof (emit_body_ok s y n) as Hok.
    destruct (emit_body s y n) as [evs res]; cbn in *.
    assert (Hhere : Forall
              (fun ev => 0 <= uint_of_int (ev_index ev) < npfb s /\
                         (in_int (b s) -> npfb s <= half_modulus ->
                          0 <= ev_index ev < npfb s)) evs).
    { eapply Forall_impl; [|exact Hev]. intros ev ->.
      unfold loop_test in T. apply Z.ltb_lt in T.
      pose proof (uint_of_int_range (b s)). split; [lia|].
      intros Hi Hn. now apply uint_lt_signed. }
    destruct res as [[[s' y'] n']| | |]; cbn; try exact Hhere.
    specialize (IH s' y' n').
    destruct (Hok _ _ _ eq_refl) as ((Hn & _) & Hb).
    destruct (emit_loop fuel (s', y', n')) as [evs' res']; cbn in *.
    apply Forall_app; split; [exact Hhere|].
    eapply Forall_impl; [|exact IH]. cbn.
    intros ev [H1 H2]. rewrite Hn in *. split; [exact H1|].
    intros Hi Hle. apply H2; auto.
Qed.

(** C1.  Every evaluation of a sub-filter that [step] makes, in the
    matched or in the derivative bank, is at an index within the bank:
    the index [_q->b] passes the loop test, an [unsigned int]
    comparison, so as an [unsigned int] it lies in [0, N); and as the
    [int] it is, it satisfies [0 <= b < N] for every bank of at most
    2^31 sub-filters.  This holds from every state of the object, for
    every input sample, for every prefix of the execution. *)
Theorem step_bank_index_in_range (fuel : nat) (s : symsync F B)
    (x : complex F) :
  Forall (fun ev => 0 <= uint_of_int (ev_index ev) < npfb s)
         (fst (step fuel s x)) /\
  (in_int (b s) -> npfb s <= half_modulus ->
   Forall (fun ev => 0 <= ev_index ev < npfb s) (fst (step fuel s x))).
Proof.
  unfold step.
  pose proof (emit_loop_indices fuel (push_both s x) [] 0) as H.
  destruct (emit_loop fuel (push_both s x, [], 0)) as [evs res].
  cbn in *. split.
  - eapply Forall_impl; [|exact H]. cbn. tauto.
  - intros Hi Hn. eapply Forall_impl; [|exact H]. cbn.
    intros ev [_ H2]. now apply H2.
Qed.

(** *** One symbol wrap for each call of [step] (I3, P2) *)

Lemma emit_loop_ok (fuel : nat) :
  forall (s : symsync F B) y n s' y' n',
    snd (emit_loop fuel (s, y, n)) = Ok (s', y', n') ->
    loop_test s' = false /\ same_configuration s s' /\
    (in_int (b s) -> in_int (b s')).
Proof.
  induction fuel as [|fuel IH]; intros s y n s' y' n'; cbn.
  - destruct (loop_test s) eqn:T; cbn; [discriminate|].
    intros [= <- <- <-]. auto using same_configuration_refl.
  - destruct (loop_test s) eqn:T; cbn.
    + pose proof (emit_body_ok s y n) as Hok.
      destruct (emit_body s y n) as [evs res]; cbn in *.
      destruct res as [[[s1 y1] n1]| | |]; cbn; try discriminate.
      destruct (Hok _ _ _ eq_refl) as (Hc & Hb).
      specialize (IH s1 y1 n1 s' y' n').
      destruct (emit_loop fuel (s1, y1, n1)) as [evs' res']; cbn in *.
      intros E. destruct (IH E) as (T' & Hc' & Hb').
      split; [exact T'|].
      split; [eapply same_configuration_trans; eauto|auto].
    + intros [= <- <- <-]. auto using same_configuration_refl.
Qed.

Lemma step_ok_inv (fuel : nat) (s : symsync F B) x s' ys :
  snd (step fuel s x) = Ok (s', ys) ->
  exists p y n,
    snd (emit_loop fuel (push_both s x, [], 0)) = Ok (p, y, n) /\
    s' = symbol_wrap p /\ ys = firstn (Z.to_nat n) y.
Proof.
  unfold step.
  destruct (emit_loop fuel (push_both s x, [], 0)) as [evs res]; cbn.
  destruct res as [[[p y] n]| | |]; cbn; try discriminate.
  intros [= <- <-]. now exists p, y, n.
Qed.

Lemma step_ok_intro (fuel : nat) (s : symsync F B) x p y n :
  snd (emit_loop fuel (push_both s x, [], 0)) = Ok (p, y, n) ->
  snd (step fuel s x) = Ok (symbol_wrap p, firstn (Z.to_nat n) y).
Proof.
  unfold step.
  destruct (emit_loop fuel (push_both s x, [], 0)) as [evs res]; cbn.
  now intros ->.
Qed.

(** X20.  A call of [step] that returns has left its loop once, in a
    state [p] that fails the loop test, and has then applied one
    symbol wrap to it: the final tau is the tau of [p] minus 1, the
    final bf the bf of [p] minus N and the final b the b of [p] minus
    N, each computed as the C code computes it ([float] subtraction
    for tau and bf; [b -= npfb] on 32-bit integers, which is the
    integer [b - N] whenever that difference is an [int], in
    particular whenever the b of [p] is not negative); every other
    field is the one of [p].  Nothing here depends on the input
    sample nor on the number [n] of outputs written. *)
Theorem step_wraps_once (fuel : nat) (s : symsync F B) (x : complex F)
    (s' : symsync F B) (ys : list (complex F)) :
  snd (step fuel s x) = Ok (s', ys) ->
  exists (p : symsync F B) (y : list (complex F)) (n : Z),
    snd (emit_loop fuel (push_both s x, [], 0)) = Ok (p, y, n) /\
    loop_test p = false /\
    ys = firstn (Z.to_nat n) y /\
    tau s' = f_sub (tau p) (f_lit 1 1) /\
    bf s' = f_sub (bf p) (f_of_uint (npfb p)) /\
    b s' = int_sub_uint (b p) (npfb p) /\
    (in_int (b s) -> in_uint (npfb s) ->
     (min_int <= b p - npfb p -> b s' = b p - npfb p) /\
     (0 <= b p -> b s' = b p - npfb p)) /\
    same_configuration p s' /\
    del s' = del p /\ q s' = q p /\ q_hat s' = q_hat p /\
    q_prime s' = q_prime p /\ decim_counter s' = decim_counter p.
Proof.
  intros Hstep.
  destruct (step_ok_inv _ _ _ Hstep) as (p & y & n & Hloop & -> & ->).
  exists p, y, n.
  destruct (emit_loop_ok _ _ _ _ Hloop) as (T & (Hn & _) & Hb).
  cbn in Hn, Hb.
  split; [exact Hloop|]. split; [exact T|]. split; [reflexivity|].
  split; [reflexivity|]. split; [reflexivity|]. split; [reflexivity|].
  split; [|repeat split].
  intros Hi Hu. specialize (Hb Hi). rewrite <- Hn in Hu.
  split.
  - intros Hlow. cbn. now apply int_sub_uint_exact.
  - intros Hpos. cbn. apply int_sub_uint_exact; auto.
    unfold loop_test in T. apply Z.ltb_ge in T.
    unfold uint_of_int in T.
    unfold in_int, in_uint, min_int, max_int, modulus, half_modulus in *.
    rewrite Z.mod_small in T by lia. lia.
Qed.

(** *** Calls of [step] that do not return *)

(** A loop that does not end from the state after some passes does not
    end from the state before them. *)
Lemma emit_loop_after_passes (j : nat) :
  forall st st' : loop_state F B,
    passes j st = Some st' ->
    (forall fuel, snd (emit_loop fuel st') = OutOfFuel) ->
    forall fuel, snd (emit_loop fuel st) = OutOfFuel.
Proof.
  induction j as [|j IH]; intros st st' Hp Hs fuel.
  - cbn in Hp. injection Hp as <-. apply Hs.
  - destruct st as [[s y] n]. cbn [passes] in Hp.
    destruct (loop_test s) eqn:T; [|discriminate].
    destruct (emit_body s y n) as [evs res] eqn:E. cbn [snd] in Hp.
    destruct res as [st1| | |]; try discriminate.
    destruct fuel as [|fuel]; cbn [emit_loop]; rewrite T; [reflexivity|].
    rewrite E. specialize (IH st1 st' Hp Hs fuel).
    destruct (emit_loop fuel st1) as [evs' res']. exact IH.
Qed.

(** The loop does not end from a state that passes the loop test and
    that its body gives back but for the decimation counter: the step
    added to tau leaves tau as it is, bf and b are the ones computed
    from this tau, and (unless the object is locked) the loop filter
    update finds q, q_hat, q_prime and del at the values it
    computes. *)
Lemma emit_loop_spins (s : symsync F B) :
  loop_test s = true ->
  f_add (tau s) (del s) = tau s ->
  f_mul (tau s) (f_of_uint (npfb s)) = bf s ->
  int_of_roundf (bf s) = Some (b s) ->
  (is_locked s = false ->
   advance_internal_loop (set_decim_counter 0 s)
     (firpfb_execute (mf s) (b s)) (firpfb_execute (dmf s) (b s))
   = set_decim_counter 0 s) ->
  forall fuel c y n,
    snd (emit_loop fuel (set_decim_counter c s, y, n)) = OutOfFuel.
Proof.
  intros T Ht Hbf Hb Hu.
  assert (Ha : forall c y n,
             advance_phase (set_decim_counter c s) y n
             = Ok (set_decim_counter (wrap_uint (c + 1)) s, y,
                   wrap_uint (n + 1))).
  { intros c y n. unfold advance_phase.
    cbn [tau del npfb bf decim_counter set_decim_counter set_tau set_bf].
    rewrite Ht, Hbf, Hb.
    destruct s; reflexivity. }
  induction fuel as [|fuel IH]; intros c y n; cbn [emit_loop];
    change (loop_test (set_decim_counter c s)) with (loop_test s);
    rewrite T; [reflexivity|].
  unfold emit_body.
  change (decim_counter (set_decim_counter c s)) with c.
  change (k_out (set_decim_counter c s)) with (k_out s).
  change (is_locked (set_decim_counter 0 (set_decim_counter c s)))
    with (is_locked s).
  change (set_decim_counter 0 (set_decim_counter c s))
    with (set_decim_counter 0 s).
  change (mf (set_decim_counter c s)) with (mf s).
  change (dmf (set_decim_counter 0 s)) with (dmf s).
  change (b (set_decim_counter c s)) with (b s).
  change (b (set_decim_counter 0 s)) with (b s).
  destruct (c =? k_out s).
  - destruct (is_locked s) eqn:L.
    + match goal with
      | |- context [emit_loop fuel (set_decim_counter 0 s, ?y', n)] =>
          specialize (IH 0 y' n)
      end.
      destruct (emit_loop fuel _) as [evs res]. exact IH.
    + rewrite (Hu eq_refl), Ha.
      match goal with
      | |- context [emit_loop fuel (?s', ?y', ?n')] =>
          specialize (IH (wrap_uint (0 + 1)) y' n')
      end.
      destruct (emit_loop fuel _) as [evs res]. exact IH.
  - rewrite Ha.
    match goal with
    | |- context [emit_loop fuel (?s', ?y', ?n')] =>
        specialize (IH (wrap_uint (c + 1)) y' n')
    end.
    destruct (emit_loop fuel _) as [evs res]. exact IH.
Qed.

(** *** Sequences of calls, and the fuel *)

Lemma step_ok_bank (fuel : nat) (s : symsync F B) x s' ys :
  snd (step fuel s x) = Ok (s', ys) -> npfb s' = npfb s /\ in_int (b s').
Proof.
  intros Hstep.
  destruct (step_ok_inv _ _ _ Hstep) as (p & y & n & Hloop & -> & _).
  destruct (emit_loop_ok _ _ _ _ Hloop) as (_ & (Hn & _) & _).
  cbn in *. split; [exact Hn|apply int_of_uint_in_int].
Qed.

(** The indices of a whole [execute] are within the bank. *)
Lemma execute_bank_index_in_range (fuel : nat) (xs : list (complex F)) :
  forall s : symsync F B,
    in_int (b s) -> npfb s <= half_modulus ->
    Forall (fun ev => 0 <= ev_index ev < npfb s) (fst (execute fuel s xs)).
Proof.
  induction xs as [|x xs IH]; intros s Hi Hn; cbn; [constructor|].
  assert (Hs : Forall (fun ev => 0 <= ev_index ev < npfb s)
                      (fst (step fuel s x))).
  { unfold step.
    pose proof (emit_loop_indices fuel (push_both s x) [] 0) as H.
    destruct (emit_loop fuel (push_both s x, [], 0)) as [evs res].
    cbn in *. eapply Forall_impl; [|exact H]. cbn.
    intros ev [_ H2]. now apply H2. }
  pose proof (@step_ok_bank fuel s x) as Hb.
  destruct (step fuel s x) as [evs res]; cbn in *.
  destruct res as [[s1 y1]| | |]; cbn; try exact Hs.
  destruct (Hb s1 y1 eq_refl) as (Hn1 & Hi1).
  specialize (IH s1 Hi1). rewrite Hn1 in IH. specialize (IH Hn).
  destruct (execute fuel s1 xs) as [evs' res']; cbn in *.
  apply Forall_app. split; assumption.
Qed.

(** A call that finishes within some fuel gives the same result with
    any larger fuel: the fuel only bounds the number of passes. *)
Lemma emit_loop_fuel_mono (n : nat) :
  forall (m : nat) (st : loop_state F B),
    (n <= m)%nat -> snd (emit_loop n st) <> OutOfFuel ->
    emit_loop m st = emit_loop n st.
Proof.
  induction n as [|n IH]; intros m [[s y] c] Hle Hfin.
  - cbn in *. destruct m; cbn; destruct (loop_test s); cbn in *;
      congruence.
  - destruct m as [|m]; [lia|]. cbn in *.
    destruct (loop_test s); [|reflexivity].
    destruct (emit_body s y c) as [evs res].
    destruct res as [st'| | |]; try reflexivity.
    rewrite (IH m st'); [reflexivity|lia|].
    destruct (emit_loop n st') as [evs' res']; cbn in *. exact Hfin.
Qed.

Lemma step_fuel_mono (n m : nat) (s : symsync F B) (x : complex F) :
  (n <= m)%nat -> snd (step n s x) <> OutOfFuel -> step m s x = step n s x.
Proof.
  intros Hle Hfin. unfold step in *.
  rewrite (@emit_loop_fuel_mono n m); [reflexivity|exact Hle|].
  destruct (emit_loop n (push_both s x, [], 0)) as [evs res]; cbn in *.
  destruct res; cbn in *; congruence.
Qed.

(** When the index is not below N the loop is not entered: the call
    returns without fuel and writes no output. *)
Lemma step_without_output (fuel : nat) (s : symsync F B) (x : complex F) :
  loop_test s = false ->
  step fuel s x = ([], Ok (symbol_wrap (push_both s x), [])).
Proof.
  intros T. unfold step.
  assert (T' : loop_test (push_both s x) = false) by exact T.
  destruct fuel; cbn; rewrite T'; reflexivity.
Qed.

(** *** The loop filter update *)

(** The fields after [advance_internal_loop], in the order in which the
    code writes its products. *)
Lemma advance_internal_loop_fields (s : symsync F B) (u v : complex F) :
  let s' := advance_internal_loop s u v in
  q s' = clip (crealf (cmul (conjf u) v)) /\
  q_hat s' = f_add (f_mul (q s') (beta s)) (f_mul (q_prime s) (alpha s)) /\
  q_prime s' = q_hat s' /\
  del s' = f_add (f_div (f_of_uint (k s)) (f_of_uint (k_out s))) (q_hat s') /\
  h_len s' = h_len s /\ k s' = k s /\ k_out s' = k_out s /\
  decim_counter s' = decim_counter s /\ is_locked s' = is_locked s /\
  r s' = r s /\ b s' = b s /\ tau s' = tau s /\ bf s' = bf s /\
  alpha s' = alpha s /\ beta s' = beta s /\ npfb s' = npfb s /\
  mf s' = mf s /\ dmf s' = dmf s.
Proof.
  unfold advance_internal_loop, clip; cbn.
  destruct (f_gt _ _); cbn; [repeat split|].
  destruct (f_lt _ _); cbn; repeat split.
Qed.

(** The real part of [conjf(u) * v] in the operations on [float]s: it
    is [re u * re v + im u * im v], unless that and the imaginary part
    [re u * im v - im u * re v] are both NaN; C then recalculates the
    product from the operands of [recover_infinities], if there are
    any. *)
Lemma timing_error_value (u v : complex F) :
  let x := f_add (f_mul (re u) (re v)) (f_mul (im u) (im v)) in
  let y := f_sub (f_mul (re u) (im v)) (f_mul (im u) (re v)) in
  crealf (cmul (conjf u) v)
  = if f_isnan x && f_isnan y then
      match recover_infinities (re u) (f_neg (im u)) (re v) (im v) with
      | Some (a, b, c, d) =>
          f_mul f_infinity (f_sub (f_mul a c) (f_mul b d))
      | None => x
      end
    else x.
Proof.
  unfold cmul, conjf, crealf. cbn [re im].
  rewrite !f_mul_neg_l, f_sub_neg_r, f_add_neg_r.
  destruct (f_isnan _ && f_isnan _); [|reflexivity].
  destruct (recover_infinities _ _ _ _) as [[[[a b] c] d]|]; reflexivity.
Qed.

(** C5.  [advance_internal_loop] sets q to Re(conj(u) * v) clamped to
    [-1, 1], q_hat to beta*q + alpha*q_prime (with the new q and the
    old q_prime), q_prime to the new q_hat and del to
    k/k_out + q_hat, and leaves every other field of the object as it
    was.  Re(conj(u) * v) is [re u * re v + im u * im v] in the
    arithmetic of [float]; where both parts of the product are NaN it
    is the real part that C's multiplication recalculates (an infinity
    or NaN), or that NaN if it recalculates nothing. *)
Theorem advance_internal_loop_spec (s : symsync F B) (u v : complex F) :
  let x := f_add (f_mul (re u) (re v)) (f_mul (im u) (im v)) in
  let y := f_sub (f_mul (re u) (im v)) (f_mul (im u) (re v)) in
  let e :=
    if f_isnan x && f_isnan y then
      match recover_infinities (re u) (f_neg (im u)) (re v) (im v) with
      | Some (a, b, c, d) =>
          f_mul f_infinity (f_sub (f_mul a c) (f_mul b d))
      | None => x
      end
    else x in
  let s' := advance_internal_loop s u v in
  q s' = clip e /\
  q_hat s' = f_add (f_mul (beta s) (q s')) (f_mul (alpha s) (q_prime s)) /\
  q_prime s' = q_hat s' /\
  del s' = f_add (f_div (f_of_uint (k s)) (f_of_uint (k_out s))) (q_hat s') /\
  h_len s' = h_len s /\ k s' = k s /\ k_out s' = k_out s /\
  decim_counter s' = decim_counter s /\ is_locked s' = is_locked s /\
  r s' = r s /\ b s' = b s /\ tau s' = tau s /\ bf s' = bf s /\
  alpha s' = alpha s /\ beta s' = beta s /\ npfb s' = npfb s /\
  mf s' = mf s /\ dmf s' = dmf s.
Proof.
  cbv zeta.
  rewrite (f_mul_comm (beta s)), (f_mul_comm (alpha s)).
  pose proof (timing_error_value u v) as E. cbv zeta in E.
  rewrite <- E.
  exact (advance_internal_loop_fields s u v).
Qed.

(** *** Lock (P4) *)

Lemma loop_frozen_refl (s : symsync F B) : loop_frozen s s.
Proof. repeat split. Qed.

Lemma loop_frozen_trans (s1 s2 s3 : symsync F B) :
  loop_frozen s1 s2 -> loop_frozen s2 s3 -> loop_frozen s1 s3.
Proof.
  unfold loop_frozen. intros H12 H23.
  decompose [and] H12. decompose [and] H23. repeat split; congruence.
Qed.

(** A pass through the loop body of a locked object writes the
    matched-filter output divided by k, and either is the pass that
    resets the decimation counter (and then [continue]s), or counts
    the output and advances tau by the del it found. *)
Lemma emit_body_locked (s : symsync F B) y n s' y' n' :
  is_locked s = true ->
  snd (emit_body s y n) = Ok (s', y', n') ->
  loop_frozen s s' /\
  y' = store y n (cdiv_real (firpfb_execute (mf s) (b s))
                            (f_of_uint (k s))) /\
  ((decim_counter s = k_out s /\ decim_counter s' = 0 /\
    n' = n /\ tau s' = tau s /\ b s' = b s) \/
   (decim_counter s <> k_out s /\ n' = wrap_uint (n + 1) /\
    tau s' = f_add (tau s) (del s))).
Proof.
  intros L. unfold emit_body.
  destruct (Z.eqb_spec (decim_counter s) (k_out s)) as [E|E]; cbn.
  - rewrite L; cbn. intros [= <- <- <-]; cbn.
    split; [repeat split; auto|]. split; [reflexivity|].
    left. auto.
  - intros H. apply advance_phase_ok in H.
    destruct H as ((_ & _ & _ & HL & _) & _ & Ht & _ & _ & _ &
                   Hq & Hqh & Hqp & Hd & -> & ->).
    split; [repeat split; auto|]. split; [reflexivity|].
    right. auto.
Qed.

Lemma emit_loop_locked (fuel : nat) :
  forall (s : symsync F B) y n s' y' n',
    is_locked s = true ->
    snd (emit_loop fuel (s, y, n)) = Ok (s', y', n') ->
    loop_frozen s s'.
Proof.
  induction fuel as [|fuel IH]; intros s y n s' y' n' L; cbn.
  - destruct (loop_test s); cbn; [discriminate|].
    intros [= <- <- <-]. apply loop_frozen_refl.
  - destruct (loop_test s); cbn.
    + pose proof (emit_body_locked s y n) as Hb.
      destruct (emit_body s y n) as [evs res]; cbn in *.
      destruct res as [[[s1 y1] n1]| | |]; cbn; try discriminate.
      destruct (Hb _ _ _ L eq_refl) as (Hf & _).
      assert (L1 : is_locked s1 = true).
      { destruct Hf as (_ & _ & _ & _ & ->). exact L. }
      specialize (IH s1 y1 n1 s' y' n' L1).
      destruct (emit_loop fuel (s1, y1, n1)) as [evs' res']; cbn in *.
      intros E. eapply loop_frozen_trans; eauto.
    + intros [= <- <- <-]. apply loop_frozen_refl.
Qed.

Lemma step_locked (fuel : nat) (s : symsync F B) x s' ys :
  is_locked s = true ->
  snd (step fuel s x) = Ok (s', ys) ->
  loop_frozen s s'.
Proof.
  intros L Hstep.
  destruct (step_ok_inv _ _ _ Hstep) as (p & y & n & Hloop & -> & _).
  apply emit_loop_locked in Hloop; [|exact L].
  destruct Hloop as (Hq & Hqh & Hqp & Hd & Hl).
  repeat split; cbn; assumption.
Qed.

Lemma execute_locked (fuel : nat) (xs : list (complex F)) :
  forall (s s' : symsync F B) ys,
    is_locked s = true ->
    snd (execute fuel s xs) = Ok (s', ys) ->
    loop_frozen s s'.
Proof.
  induction xs as [|x xs IH]; intros s s' ys L; cbn.
  - intros [= <- _]. apply loop_frozen_refl.
  - pose proof (@step_locked fuel s x) as Hs.
    destruct (step fuel s x) as [evs res]; cbn in *.
    destruct res as [[s1 y1]| | |]; cbn; try discriminate.
    specialize (Hs s1 y1 L eq_refl).
    assert (L1 : is_locked s1 = true).
    { destruct Hs as (_ & _ & _ & _ & ->). exact L. }
    specialize (IH s1).
    destruct (execute fuel s1 xs) as [evs' res']; cbn in *.
    destruct res' as [[s2 y2]| | |]; cbn; try discriminate.
    intros [= <- <-]. eapply loop_frozen_trans; eauto.
Qed.

(** C6.  After [lock], running [step] on any number of input samples
    (through [execute], from any state of the object) leaves q,
    q_hat, q_prime and del equal to what they were when [lock] was
    called, and the object locked.  And outputs go on being emitted
    with that del: every pass through the loop body of a locked
    object writes the matched-filter output divided by k, and either
    resets the decimation counter and comes back to the same index,
    or counts the output and advances tau by the frozen del. *)
Theorem lock_freezes_loop :
  (forall (fuel : nat) (s : symsync F B) (xs : list (complex F))
          (s' : symsync F B) (ys : list (complex F)),
      snd (execute fuel (lock s) xs) = Ok (s', ys) ->
      q s' = q s /\ q_hat s' = q_hat s /\ q_prime s' = q_prime s /\
      del s' = del s /\ is_locked s' = true) /\
  (forall (s : symsync F B) y n s' y' n',
      is_locked s = true ->
      snd (emit_body s y n) = Ok (s', y', n') ->
      del s' = del s /\
      y' = store y n (cdiv_real (firpfb_execute (mf s) (b s))
                                (f_of_uint (k s))) /\
      ((decim_counter s = k_out s /\ decim_counter s' = 0 /\
        n' = n /\ tau s' = tau s /\ b s' = b s) \/
       (decim_counter s <> k_out s /\ n' = wrap_uint (n + 1) /\
        tau s' = f_add (tau s) (del s)))).
Proof.
  split.
  - intros fuel s xs s' ys H.
    apply execute_locked in H; [|reflexivity].
    destruct H as (Hq & Hqh & Hqp & Hd & Hl). cbn in *. auto.
  - intros s y n s' y' n' L H.
    destruct (emit_body_locked _ _ _ L H) as ((_ & _ & _ & Hd & _) & Hy & Hc).
    auto.
Qed.

End Properties.

(** ** Construction *)

Section Construction.
Context {F : Type} {FA : FloatArith F} {B : Type} {PFB : FirPfb F B}.

Lemma read_in_range (a : list F) (i : Z) :
  0 <= i < Z.of_nat (length a) -> read a i = Ok (h_at a i).
Proof.
  intros Hi. unfold read, h_at.
  destruct (Z.leb_spec 0 i); [|lia].
  destruct (Z.ltb_spec i (Z.of_nat (length a))); [|lia]. cbn.
  destruct (nth_error a (Z.to_nat i)) as [v|] eqn:E.
  - now rewrite (nth_error_nth _ _ _ E).
  - apply nth_error_None in E. lia.
Qed.

Lemma read_out_of_range (a : list F) (i : Z) :
  Z.of_nat (length a) <= i -> read a i = Undefined.
Proof.
  intros Hi. unfold read.
  destruct (Z.ltb_spec i (Z.of_nat (length a))); [lia|].
  now rewrite andb_false_r.
Qed.

Lemma read_not_fatal (a : list F) (i : Z) : read a i <> Fatal.
Proof.
  unfold read.
  destruct (_ && _); [|discriminate].
  destruct (nth_error _ _); discriminate.
Qed.

(** *** The derivative filter *)

Lemma dh_coeff_in_range (N : Z) (h : list F) (M i : Z) :
  M = Z.of_nat (length h) -> 2 <= M -> 0 <= i < M ->
  dh_coeff N h M i =
  Ok (f_mul (if i =? 0 then f_sub (h_at h 1) (h_at h (M - 1))
             else if i =? M - 1 then f_sub (h_at h 0) (h_at h (M - 2))
             else f_sub (h_at h (i + 1)) (h_at h (i - 1)))
            (dh_scale N)).
Proof.
  intros HM H2 Hi. unfold dh_coeff, dh_scale.
  destruct (Z.eqb_spec i 0) as [->|Hi0].
  - rewrite !read_in_range by lia. reflexivity.
  - destruct (Z.eqb_spec i (M - 1)) as [->|HiM].
    + rewrite !read_in_range by lia.
      replace (M - 1 - 1) with (M - 2) by lia. reflexivity.
    + rewrite !read_in_range by lia. reflexivity.
Qed.

Lemma dh_loop_in_range (N : Z) (h : list F) (M : Z) :
  M = Z.of_nat (length h) -> 2 <= M ->
  forall (count : nat) (i : Z),
    0 <= i -> i + Z.of_nat count = M ->
    exists dh,
      dh_loop N h M i count = Ok dh /\ length dh = count /\
      forall j, 0 <= j < Z.of_nat count ->
                dh_coeff N h M (i + j) = Ok (h_at dh j).
Proof.
  intros HM H2. induction count as [|count IH]; intros i Hi Hsum.
  - exists []. cbn. repeat split. intros j Hj. lia.
  - destruct (IH (i + 1)) as (rest & Hrest & Hlen & Hnth); [lia|lia|].
    cbn [dh_loop].
    pose proof (@dh_coeff_in_range N h M i HM H2) as Hc.
    rewrite Hc by lia. cbn [bind]. rewrite Hrest. cbn [bind].
    eexists. split; [reflexivity|]. split; [cbn; now rewrite Hlen|].
    intros j Hj.
    destruct (Z.eq_dec j 0) as [->|Hj0].
    + rewrite Z.add_0_r, Hc by lia. reflexivity.
    + replace (i + j) with (i + 1 + (j - 1)) by lia.
      rewrite Hnth by lia. unfold h_at.
      replace (Z.to_nat j) with (S (Z.to_nat (j - 1))) by lia.
      reflexivity.
Qed.

Lemma dh_loop_not_fatal (N : Z) (h : list F) (M : Z) :
  forall (count : nat) (i : Z), dh_loop N h M i count <> Fatal.
Proof.
  induction count as [|count IH]; intros i; cbn; [discriminate|].
  unfold dh_coeff.
  assert (Hr : forall j, read h j <> Fatal) by apply read_not_fatal.
  specialize (IH (i + 1)).
  destruct (dh_loop N h M (i + 1) count); try contradiction;
    destruct (i =? 0); [|destruct (i =? M - 1)| |destruct (i =? M - 1)
                        | |destruct (i =? M - 1)];
    repeat match goal with
           | |- context [read h ?j] =>
               let E := fresh in
               pose proof (Hr j) as E; destruct (read h j); cbn
           end; try discriminate; try contradiction.
Qed.

(** A prototype of one coefficient: the first pass of the loop reads
    [_h[1]], which is outside of it. *)
Lemma compute_dh_single (N : Z) (x : F) : compute_dh N [x] 1 = Undefined.
Proof. reflexivity. Qed.

(** *** What [create] returns *)

Lemma create_from_inv (g : symsync F B) (_k _npfb : Z) (_h : list F)
    (_h_len : Z) (s : symsync F B) :
  create_from g _k _npfb _h _h_len = Ok s ->
  2 <= _k /\ _h_len <> 0 /\ _npfb <> 0 /\
  exists dh,
    compute_dh _npfb _h _h_len = Ok dh /\
    s = Build_symsync
          (wrap_uint (_h_len - 1) / _npfb) _k 1 0 false
          (f_div (f_of_uint 1) (f_of_uint _k)) 0
          (f_div (f_lit 1 1) (f_div (f_of_uint 1) (f_of_uint _k)))
          (f_lit 0 1) (f_lit 0 1)
          (f_sub (f_lit 1 1) (f_lit 1 100))
          (f_mul (f_lit 22 100) (f_lit 1 100))
          (f_lit 0 1) (f_lit 0 1) (f_lit 0 1) _npfb
          (firpfb_clear (firpfb_create _npfb _h _h_len))
          (firpfb_create _npfb dh _h_len).
Proof.
  unfold create_from.
  destruct (Z.ltb_spec _k 2); [discriminate|].
  destruct (Z.eqb_spec _h_len 0); [discriminate|].
  destruct (Z.eqb_spec _npfb 0); [discriminate|].
  cbn. destruct (compute_dh _npfb _h _h_len) as [dh| | |]; cbn;
    try discriminate.
  unfold set_lf_bw; cbn.
  destruct (_ || _); cbn; [discriminate|].
  intros [= <-]. repeat split; auto. now exists dh.
Qed.

Lemma create_from_not_fatal (g : symsync F B) (_k _npfb : Z)
    (_h : list F) (_h_len : Z) :
  default_bandwidth_valid ->
  2 <= _k -> _h_len <> 0 -> _npfb <> 0 ->
  create_from g _k _npfb _h _h_len <> Fatal.
Proof.
  intros Hbw Hk Hl Hn. unfold create_from.
  destruct (Z.ltb_spec _k 2); [lia|].
  destruct (Z.eqb_spec _h_len 0); [lia|].
  destruct (Z.eqb_spec _npfb 0); [lia|].
  cbn. pose proof (@dh_loop_not_fatal _npfb _h _h_len
                     (Z.to_nat _h_len) 0) as Hdh.
  unfold compute_dh.
  destruct (dh_loop _npfb _h _h_len 0 (Z.to_nat _h_len)); cbn;
    try contradiction; try discriminate.
  unfold set_lf_bw; cbn. red in Hbw. rewrite Hbw. cbn. discriminate.
Qed.

Lemma create_from_invalid (g : symsync F B) (_k _npfb : Z)
    (_h : list F) (_h_len : Z) :
  _k < 2 \/ _h_len = 0 \/ _npfb = 0 ->
  create_from g _k _npfb _h _h_len = Fatal.
Proof.
  intros Hbad. unfold create_from.
  destruct (Z.ltb_spec _k 2); [reflexivity|].
  destruct (Z.eqb_spec _h_len 0); [reflexivity|].
  destruct (Z.eqb_spec _npfb 0); [reflexivity|].
  exfalso. lia.
Qed.

Lemma create_from_fatal_iff (g : symsync F B) (_k _npfb : Z)
    (_h : list F) (_h_len : Z) :
  default_bandwidth_valid ->
  (create_from g _k _npfb _h _h_len = Fatal <->
   _k < 2 \/ _h_len = 0 \/ _npfb = 0).
Proof.
  intros Hbw. split; [|apply create_from_invalid].
  intros Hf.
  destruct (Z.lt_ge_cases _k 2) as [Hk|Hk]; [auto|].
  destruct (Z.eq_dec _h_len 0) as [Hl|Hl]; [auto|].
  destruct (Z.eq_dec _npfb 0) as [Hn|Hn]; [auto|].
  exfalso. revert Hf. apply create_from_not_fatal; auto.
Qed.

Lemma create_from_ok (g : symsync F B) (_k _npfb : Z) (_h : list F) :
  default_bandwidth_valid ->
  2 <= _k -> _npfb <> 0 -> (2 <= length _h)%nat ->
  exists s, create_from g _k _npfb _h (Z.of_nat (length _h)) = Ok s.
Proof.
  intros Hbw Hk Hn Hlen. unfold create_from.
  destruct (Z.ltb_spec _k 2); [lia|].
  destruct (Z.eqb_spec (Z.of_nat (length _h)) 0); [lia|].
  destruct (Z.eqb_spec _npfb 0); [lia|].
  cbn. unfold compute_dh.
  destruct (@dh_loop_in_range _npfb _h (Z.of_nat (length _h)) eq_refl
              ltac:(lia) (Z.to_nat (Z.of_nat (length _h))) 0)
    as (dh & Hdh & _); [lia|lia|].
  rewrite Hdh. cbn. unfold set_lf_bw; cbn. red in Hbw. rewrite Hbw.
  cbn. eauto.
Qed.

(** With a prototype of one coefficient [create] passes its
    validation and then reads outside the prototype. *)
Lemma create_from_single (g : symsync F B) (_k _npfb : Z) (x : F) :
  2 <= _k -> _npfb <> 0 -> create_from g _k _npfb [x] 1 = Undefined.
Proof.
  intros Hk Hn. unfold create_from.
  destruct (Z.ltb_spec _k 2); [lia|].
  destruct (Z.eqb_spec _npfb 0); [lia|]. reflexivity.
Qed.

End Construction.

(** ** Reachable states *)

Section Reachable.
Context {F : Type} {FA : FloatArith F} {B : Type} {PFB : FirPfb F B}.
Variable design : Z -> Z -> Z -> F -> F -> list F.

Lemma create_rnyquist_from_inv (g : symsync F B) _type _k _m _beta _npfb s :
  create_rnyquist_from design g _type _k _m _beta _npfb = Ok s ->
  exists H H_len, create_from g _k _npfb H H_len = Ok s.
Proof.
  unfold create_rnyquist_from.
  destruct (_k <? 2); [discriminate|].
  destruct (_m =? 0); [discriminate|].
  destruct (_ || _); [discriminate|].
  destruct (copy_coeffs _ _ _) as [H| | |]; cbn; try discriminate.
  eauto.
Qed.

(** *** Proving an invariant of the reachable states *)

Section Invariant.
Variable P : symsync F B -> Prop.

Hypothesis P_create :
  forall g _k _npfb _h _h_len s,
    create_from g _k _npfb _h _h_len = Ok s -> P s.
Hypothesis P_push : forall s x, P s -> P (push_both s x).
Hypothesis P_body :
  forall s y n s' y' n',
    P s -> loop_test s = true ->
    snd (emit_body s y n) = Ok (s', y', n') -> P s'.
Hypothesis P_wrap :
  forall s, P s -> loop_test s = false -> P (symbol_wrap s).
Hypothesis P_set_lf_bw :
  forall s _bt s', P s -> set_lf_bw s _bt = Ok s' -> P s'.
Hypothesis P_set_output_rate :
  forall s _k_out s',
    P s -> in_uint _k_out -> set_output_rate s _k_out = Ok s' -> P s'.
Hypothesis P_lock : forall s, P s -> P (lock s).
Hypothesis P_unlock : forall s, P s -> P (unlock s).
Hypothesis P_reset : forall s, P s -> P (reset s).

Lemma emit_loop_invariant (fuel : nat) :
  forall s y n s' y' n',
    P s -> snd (emit_loop fuel (s, y, n)) = Ok (s', y', n') ->
    P s' /\ loop_test s' = false.
Proof.
  induction fuel as [|fuel IH]; intros s y n s' y' n' HP; cbn.
  - destruct (loop_test s) eqn:T; cbn; [discriminate|].
    now intros [= <- <- <-].
  - destruct (loop_test s) eqn:T; cbn.
    + pose proof (@P_body s y n) as Hb.
      destruct (emit_body s y n) as [evs res]; cbn in *.
      destruct res as [[[s1 y1] n1]| | |]; cbn; try discriminate.
      specialize (Hb _ _ _ HP T eq_refl).
      specialize (IH s1 y1 n1 s' y' n' Hb).
      destruct (emit_loop fuel (s1, y1, n1)) as [evs' res']; cbn in *.
      exact IH.
    + now intros [= <- <- <-].
Qed.

Lemma step_invariant (fuel : nat) s x s' ys :
  P s -> snd (step fuel s x) = Ok (s', ys) -> P s'.
Proof.
  intros HP Hstep.
  destruct (step_ok_inv _ _ _ Hstep) as (p & y & n & Hloop & -> & _).
  apply emit_loop_invariant in Hloop; [|now apply P_push].
  destruct Hloop. now apply P_wrap.
Qed.

Lemma execute_invariant (fuel : nat) (xs : list (complex F)) :
  forall s s' ys,
    P s -> snd (execute fuel s xs) = Ok (s', ys) -> P s'.
Proof.
  induction xs as [|x xs IH]; intros s s' ys HP; cbn.
  - now intros [= <- _].
  - pose proof (@step_invariant fuel s x) as Hs.
    destruct (step fuel s x) as [evs res]; cbn in *.
    destruct res as [[s1 y1]| | |]; cbn; try discriminate.
    specialize (Hs s1 y1 HP eq_refl). specialize (IH s1).
    destruct (execute fuel s1 xs) as [evs' res']; cbn in *.
    destruct res' as [[s2 y2]| | |]; cbn; try discriminate.
    intros [= <- <-]. now apply IH with (ys := y2).
Qed.

Lemma reachable_invariant s : reachable design s -> P s.
Proof.
  induction 1 as [? ? ? ? ? Hc|? ? ? ? ? ? Hc|? ? ? ? ? ? IH Hs
                 |? ? ? ? ? ? IH He|? ? ? ? IH Hs|? ? ? ? IH ? Hs
                 |? ? IH|? ? IH|? ? IH].
  - now apply P_create in Hc.
  - apply create_rnyquist_from_inv in Hc.
    destruct Hc as (H & H_len & Hc). now apply P_create in Hc.
  - now apply step_invariant in Hs.
  - now apply execute_invariant in He.
  - now apply P_set_lf_bw in Hs.
  - now apply P_set_output_rate in Hs.
  - now apply P_lock.
  - now apply P_unlock.
  - now apply P_reset.
Qed.

End Invariant.

(** In every reachable state [b] is an [int] (as its type says). *)
Lemma reachable_in_int s : reachable design s -> in_int (b s).
Proof.
  apply reachable_invariant with (P := fun s => in_int (b s)).
  - intros g _k _npfb _h _h_len s' Hc.
    apply create_from_inv in Hc.
    destruct Hc as (_ & _ & _ & dh & _ & ->). cbn.
    unfold in_int, min_int, max_int, half_modulus. lia.
  - auto.
  - intros s0 y n s' y' n' Hb _ Hbody.
    now apply (emit_body_ok _ _ _ Hbody).
  - intros s0 _ _. cbn. apply int_of_uint_in_int.
  - unfold set_lf_bw. intros s0 _bt s' Hb.
    destruct (_ || _); [discriminate|]. now intros [= <-].
  - unfold set_output_rate. intros s0 ko s' Hb _.
    destruct (ko =? 0); [discriminate|]. now intros [= <-].
  - auto.
  - auto.
  - intros s0 _. cbn. unfold in_int, min_int, max_int, half_modulus. lia.
Qed.

End Reachable.

(** ** What [create] builds *)

Section Created.
Context {F : Type} {FA : FloatArith F} {B : Type} {PFB : FirPfb F B}.

(** [create] assigns every field: what it returns does not depend on
    the content of the memory it was given. *)
Lemma create_from_garbage (g g' : symsync F B) (_k _npfb : Z)
    (_h : list F) (_h_len : Z) :
  create_from g _k _npfb _h _h_len = create_from g' _k _npfb _h _h_len.
Proof.
  unfold create_from.
  destruct (_k <? 2); [reflexivity|].
  destruct (_h_len =? 0); [reflexivity|].
  destruct (_npfb =? 0); [reflexivity|].
  cbn. destruct (compute_dh _npfb _h _h_len); cbn; try reflexivity.
  unfold set_lf_bw; cbn. destruct (_ || _); reflexivity.
Qed.

(** C7.  For a prototype [h] of length M (at least 2, so that the
    three index ranges of the formula exist), the derivative bank that
    [create] builds is FIRPFB(_create) applied to the M coefficients
    [dh] with dh[0] = (h[1] - h[M-1]) * (N/16),
    dh[i] = (h[i+1] - h[i-1]) * (N/16) for 0 < i < M-1 and
    dh[M-1] = (h[0] - h[M-2]) * (N/16), where N is the number of
    sub-filters and N/16 is [(float)N / 16.0f]. *)
Theorem derivative_filter_coefficients (_k N : Z) (h : list F)
    (s : symsync F B) :
  let M := Z.of_nat (length h) in
  2 <= M ->
  create _k N h M = Ok s ->
  exists dh : list F,
    dmf s = firpfb_create N dh M /\
    length dh = length h /\
    h_at dh 0 =
      f_mul (f_sub (h_at h 1) (h_at h (M - 1)))
            (f_div (f_of_uint N) (f_lit 16 1)) /\
    (forall i, 0 < i < M - 1 ->
       h_at dh i =
         f_mul (f_sub (h_at h (i + 1)) (h_at h (i - 1)))
               (f_div (f_of_uint N) (f_lit 16 1))) /\
    h_at dh (M - 1) =
      f_mul (f_sub (h_at h 0) (h_at h (M - 2)))
            (f_div (f_of_uint N) (f_lit 16 1)).
Proof.
  intros M HM Hc. unfold create in Hc. apply create_from_inv in Hc.
  destruct Hc as (_ & _ & _ & dh & Hdh & ->).
  exists dh. split; [reflexivity|].
  destruct (@dh_loop_in_range F FA N h M eq_refl HM (Z.to_nat M) 0)
    as (dh' & Hdh' & Hlen & Hnth); [lia|lia|].
  unfold compute_dh in Hdh. rewrite Hdh' in Hdh.
  injection Hdh as ->.
  assert (Hat : forall i, 0 <= i < M ->
            Ok (h_at dh i) =
            Ok (f_mul (if i =? 0 then f_sub (h_at h 1) (h_at h (M - 1))
                       else if i =? M - 1
                            then f_sub (h_at h 0) (h_at h (M - 2))
                            else f_sub (h_at h (i + 1)) (h_at h (i - 1)))
                      (dh_scale N))).
  { intros i Hi. rewrite <- (Hnth i) by lia.
    rewrite Z.add_0_l. now apply dh_coeff_in_range. }
  split; [subst M; lia|]. unfold dh_scale in Hat.
  split; [|split].
  - specialize (Hat 0 ltac:(lia)). now injection Hat.
  - intros i Hi. specialize (Hat i ltac:(lia)).
    destruct (Z.eqb_spec i 0); [lia|].
    destruct (Z.eqb_spec i (M - 1)); [lia|]. now injection Hat.
  - specialize (Hat (M - 1) ltac:(lia)).
    destruct (Z.eqb_spec (M - 1) 0); [lia|].
    rewrite Z.eqb_refl in Hat. now injection Hat.
Qed.

(** The stored sub-filter length is [(h_len - 1) / N], which is
    positive exactly when the prototype has more coefficients than
    the bank has sub-filters. *)
Lemma create_h_len (_k N : Z) (h : list F) (M : Z) (s : symsync F B) :
  in_uint M -> in_uint N ->
  create _k N h M = Ok s ->
  h_len s = (M - 1) / N /\ (0 < h_len s <-> N < M).
Proof.
  intros HM HN Hc. unfold create in Hc. apply create_from_inv in Hc.
  destruct Hc as (_ & HM0 & HN0 & dh & _ & ->). cbn.
  unfold in_uint, wrap_uint, modulus in *.
  rewrite Z.mod_small by lia. split; [reflexivity|].
  split; intros H.
  - destruct (Z.lt_ge_cases N M) as [|Hge]; [assumption|].
    rewrite Z.div_small in H by lia. lia.
  - apply Z.div_str_pos. lia.
Qed.

End Created.

(** ** Construction in single precision *)

Section CreateSingle.
Context {B : Type} {PFB : FirPfb Binary32.float B}.
Variable design :
  Z -> Z -> Z -> Binary32.float -> Binary32.float -> list Binary32.float.

(** The designer fills the array [Hf] that it is given. *)
Hypothesis design_fills :
  forall _type _k _m _beta _npfb,
    wrap_uint (2 * _npfb * _k * _m + 1) <=
    Z.of_nat (length (design _type (wrap_uint (_k * _npfb)) _m _beta
                             (f_lit 0 1))).

Lemma single_default_bandwidth_valid :
  default_bandwidth_valid (F := Binary32.float).
Proof. reflexivity. Qed.

(** [create] exits exactly on its three validation conditions. *)
Lemma create_fatal_iff (_k _npfb : Z) (_h : list Binary32.float)
    (_h_len : Z) :
  create (B := B) _k _npfb _h _h_len = Fatal <->
  _k < 2 \/ _h_len = 0 \/ _npfb = 0.
Proof. apply create_from_fatal_iff, single_default_bandwidth_valid. Qed.

(** With valid arguments and a prototype of at least two coefficients
    [create] returns an object. *)
Lemma create_ok (_k _npfb : Z) (_h : list Binary32.float) :
  2 <= _k -> _npfb <> 0 -> (2 <= length _h)%nat ->
  exists s : symsync Binary32.float B,
    create _k _npfb _h (Z.of_nat (length _h)) = Ok s.
Proof. apply create_from_ok, single_default_bandwidth_valid. Qed.

Lemma copy_coeffs_ok (Hf : list Binary32.float) :
  forall (count : nat) (i : Z),
    0 <= i -> i + Z.of_nat count <= Z.of_nat (length Hf) ->
    exists H, copy_coeffs Hf i count = Ok H /\ length H = count.
Proof.
  induction count as [|count IH]; intros i Hi Hle; cbn.
  - now exists [].
  - rewrite read_in_range by lia. cbn.
    destruct (IH (i + 1)) as (H & -> & Hlen); [lia|lia|]. cbn.
    eexists. split; [reflexivity|]. cbn. now rewrite Hlen.
Qed.

Lemma odd_length_nonzero (z : Z) : wrap_uint (2 * z + 1) <> 0.
Proof.
  unfold wrap_uint, modulus. intros H.
  pose proof (Z.div_mod (2 * z + 1) (2 ^ 32) ltac:(lia)) as E.
  rewrite H in E. lia.
Qed.

(** [create_rnyquist] exits exactly when k < 2, m = 0, the excess
    bandwidth compares below 0 or above 1, or N = 0 (the last one is
    found by [create]). *)
Lemma create_rnyquist_fatal_iff (_type _k _m : Z)
    (_beta : Binary32.float) (_npfb : Z) :
  create_rnyquist (B := B) design _type _k _m _beta _npfb = Fatal <->
  _k < 2 \/ _m = 0 \/
  f_lt _beta (f_lit 0 1) || f_gt _beta (f_lit 1 1) = true \/ _npfb = 0.
Proof.
  unfold create_rnyquist, create_rnyquist_from.
  destruct (Z.ltb_spec _k 2) as [Hk|Hk]; [intuition|].
  destruct (Z.eqb_spec _m 0) as [Hm|Hm]; [intuition|].
  destruct (_ || _) eqn:Hb; [intuition|].
  pose proof (design_fills _type _k _m _beta _npfb) as Hfill.
  pose proof (Z.mod_pos_bound (2 * _npfb * _k * _m + 1) modulus
                ltac:(unfold modulus; lia)) as Hpos.
  fold (wrap_uint (2 * _npfb * _k * _m + 1)) in Hpos.
  destruct (@copy_coeffs_ok
              (design _type (wrap_uint (_k * _npfb)) _m _beta (f_lit 0 1))
              (Z.to_nat (wrap_uint (2 * _npfb * _k * _m + 1))) 0)
    as (H & -> & _); [lia|lia|]. cbn [bind].
  rewrite create_from_fatal_iff by apply single_default_bandwidth_valid.
  pose proof (odd_length_nonzero (_npfb * _k * _m)) as Hodd.
  replace (2 * (_npfb * _k * _m) + 1) with (2 * _npfb * _k * _m + 1)
    in Hodd by lia.
  split.
  - intros [?|[?|?]]; [lia|contradiction|auto].
  - intros [?|[?|[?|?]]]; [lia|lia|discriminate|auto].
Qed.

End CreateSingle.

(** ** The two delay lines, with the bank of the specification *)

Section DelayLines.
Context {F : Type} {FA : FloatArith F}.

(** [create] builds the two banks with the same, all-zero, delay line. *)
Lemma create_banks_agree (g : symsync F SpecFirPfb.bank) (_k _npfb : Z)
    (_h : list F) (_h_len : Z) (s : symsync F SpecFirPfb.bank) :
  create_from g _k _npfb _h _h_len = Ok s -> banks_agree s.
Proof.
  intros Hc. apply create_from_inv in Hc.
  destruct Hc as (_ & _ & _ & dh & _ & ->).
  unfold banks_agree; cbn. split; reflexivity.
Qed.

Lemma push_both_banks_agree (s : symsync F SpecFirPfb.bank)
    (x : complex F) :
  banks_agree s -> banks_agree (push_both s x).
Proof.
  unfold banks_agree; cbn. intros [Hd Hl]. now rewrite Hd, Hl.
Qed.

(** [step] pushes the sample into both banks: delay lines that agree
    before a call agree after it. *)
Lemma step_banks_agree (fuel : nat) (s : symsync F SpecFirPfb.bank)
    (x : complex F) (s' : symsync F SpecFirPfb.bank) ys :
  banks_agree s -> snd (step fuel s x) = Ok (s', ys) -> banks_agree s'.
Proof.
  apply step_invariant.
  - intros s0 x0. apply push_both_banks_agree.
  - intros s0 y n s1 y1 n1 Ha _ Hb.
    destruct (emit_body_ok _ _ _ Hb) as ((_ & _ & _ & _ & _ & _ & Hm & Hd & _) & _).
    unfold banks_agree in *. now rewrite Hm, Hd.
  - intros s0 Ha _. exact Ha.
Qed.

Lemma execute_banks_agree (fuel : nat) (xs : list (complex F))
    (s s' : symsync F SpecFirPfb.bank) ys :
  banks_agree s -> snd (execute fuel s xs) = Ok (s', ys) -> banks_agree s'.
Proof.
  apply execute_invariant.
  - intros s0 x0. apply push_both_banks_agree.
  - intros s0 y n s1 y1 n1 Ha _ Hb.
    destruct (emit_body_ok _ _ _ Hb) as ((_ & _ & _ & _ & _ & _ & Hm & Hd & _) & _).
    unfold banks_agree in *. now rewrite Hm, Hd.
  - intros s0 Ha _. exact Ha.
Qed.

(** [reset] clears the delay line of the matched bank and leaves the
    derivative bank as it is. *)
Lemma reset_banks (s : symsync F SpecFirPfb.bank) :
  SpecFirPfb.delay (mf (reset s))
    = repeat czero (SpecFirPfb.sub_len (mf s)) /\
  dmf (reset s) = dmf s.
Proof. split; reflexivity. Qed.

End DelayLines.

(** ** The runs *)

Import Runs.

Lemma created_eq : create 2 1 h3 3 = Ok created.
Proof. vm_compute. reflexivity. Qed.

Lemma upsampling_eq : set_output_rate created 10 = Ok upsampling.
Proof. vm_compute. reflexivity. Qed.

Lemma wide_eq : set_lf_bw upsampling (fl 1 1) = Ok wide.
Proof. vm_compute. reflexivity. Qed.

Lemma tuned_eq : set_lf_bw created bt43 = Ok tuned.
Proof. vm_compute. reflexivity. Qed.

Lemma reachable_created : reachable flat_design created.
Proof. eapply reach_create. exact created_eq. Qed.

Lemma reachable_tuned : reachable flat_design tuned.
Proof.
  eapply reach_set_lf_bw; [exact reachable_created|exact tuned_eq].
Qed.

(** The literal [0.22f] is 14763950 * 2^-26, just below 0.22. *)
Lemma literal_022 :
  to_Q (fl 22 100) = Some (14763950 # 67108864)%Q /\
  (14763950 # 67108864 < 22 # 100)%Q.
Proof. split; vm_compute; reflexivity. Qed.

(** C3.  The object is created with k = 2, its output rate is set to
    k_out = 10 and its loop bandwidth to 1, and it is given three input
    samples 4 + 0i: the loop update of the third call of [step] finds
    q = -1, sets q_hat = -0.22f and del = 2/10 + q_hat, which is
    negative. *)
Theorem loop_update_makes_del_negative :
  create 2 1 h3 3 = Ok created /\
  set_output_rate created 10 = Ok upsampling /\
  set_lf_bw upsampling (fl 1 1) = Ok wide /\
  (exists ys, snd (execute 100 wide [x4; x4; x4]) = Ok (stalled, ys)) /\
  reachable flat_design stalled /\
  to_Q (q_hat stalled) = Some (- (14763950 # 67108864))%Q /\
  to_Q (del stalled) = Some (- (10737416 # 536870912))%Q /\
  f_lt (del stalled) (f_lit 0 1) = true.
Proof.
  assert (He : exists ys, snd (execute 100 wide [x4; x4; x4])
                          = Ok (stalled, ys)).
  { eexists. vm_compute. reflexivity. }
  split; [exact created_eq|]. split; [exact upsampling_eq|].
  split; [exact wide_eq|]. split; [exact He|].
  split; [|repeat split; vm_compute; reflexivity].
  destruct He as (ys & He).
  eapply reach_execute; [|exact He].
  eapply reach_set_lf_bw; [|exact wide_eq].
  eapply reach_set_output_rate;
    [exact reachable_created| |exact upsampling_eq].
  unfold in_uint, modulus. lia.
Qed.

(** Once del is negative the index [b] becomes negative, the loop test
    fails, and the following input samples produce no output. *)
Lemma stalled_emits_nothing :
  b stalled = -2 /\
  written (snd (execute 100 stalled (repeat x4 8))) = [] /\
  b (after (snd (execute 100 stalled (repeat x4 8)))) = -10.
Proof. repeat split; vm_compute; reflexivity. Qed.

(** C4.  After [create], one call of [step] with the sample 4 + 0i and
    then [reset], the delay line of the matched bank is zero and the
    delay line of the derivative bank still holds the sample: [reset]
    clears the matched bank only. *)
Theorem reset_clears_matched_bank_only :
  create 2 1 h3 3 = Ok created /\
  snd (step 100 created x4) = Ok (stepped, stepped_out) /\
  SpecFirPfb.delay (mf (reset stepped)) = [czero; czero] /\
  SpecFirPfb.delay (dmf (reset stepped)) = [x4; czero] /\
  SpecFirPfb.delay (mf (reset stepped))
    <> SpecFirPfb.delay (dmf (reset stepped)).
Proof.
  split; [exact created_eq|].
  repeat split; try (vm_compute; reflexivity).
  vm_compute. discriminate.
Qed.

(** C8.  [create] with k = 2, one sub-filter and a prototype of one
    coefficient: the three validation conditions pass, and the first
    pass of the derivative loop reads [_h[1]], outside the prototype. *)
Theorem create_single_coefficient_undefined :
  create (B := @SpecFirPfb.bank float) 2 1 [fl 1 1] 1 = Undefined.
Proof. vm_compute. reflexivity. Qed.

(** C9.  [create] with four sub-filters and a prototype of three
    coefficients returns an object whose sub-filter length is
    (3 - 1) / 4 = 0. *)
Theorem create_zero_sub_filter_length :
  exists s : sync,
    create 2 4 [fl 1 1; fl 1 1; fl 1 1] 3 = Ok s /\ h_len s = 0.
Proof. eexists. split; vm_compute; reflexivity. Qed.

Lemma coarse_eq : create 11 1 h3 3 = Ok coarse.
Proof. vm_compute. reflexivity. Qed.

Lemma coarse_wide_eq : set_lf_bw coarse_paced (fl 1 1) = Ok coarse_wide.
Proof. vm_compute. reflexivity. Qed.

Lemma reachable_coarse_wide : reachable flat_design coarse_wide.
Proof.
  eapply reach_set_lf_bw; [|exact coarse_wide_eq].
  eapply reach_set_output_rate with (s := coarse) (_k_out := 50).
  - eapply reach_create. exact coarse_eq.
  - unfold in_uint, modulus. lia.
  - vm_compute. reflexivity.
Qed.

Lemma poised_eq :
  exists ys, snd (execute 100 coarse_wide (repeat x4 11)) = Ok (poised, ys).
Proof. eexists. vm_compute. reflexivity. Qed.

(** From [spinning] the loop of [step] does not end. *)
Lemma spinning_spins (fuel : nat) (y : list (complex float)) (n : Z) :
  snd (emit_loop fuel (spinning, y, n)) = OutOfFuel.
Proof.
  change spinning with (set_decim_counter 1 spinning).
  apply emit_loop_spins; [reflexivity..|].
  intros _. vm_compute. reflexivity.
Qed.

(** C2.  A call of [step] that does not return, and so applies no
    symbol wrap.  The object has 11 samples per symbol in and 50 out,
    so that k/k_out is 0.22f, and the loop bandwidth 1, so that beta is
    0.22f too.  After eleven input samples 4 + 0i, the third pass of
    the next call's loop updates the loop filter with q = -1: q_hat
    becomes -0.22f and del = 0.22f - 0.22f = +0.  From then on tau, bf
    and b = 0 no longer change, the test [b < npfb] stays true, and
    the loop does not end within any number of passes. *)
Theorem step_does_not_return :
  create 11 1 h3 3 = Ok coarse /\
  set_output_rate coarse 50 = Ok coarse_paced /\
  set_lf_bw coarse_paced (fl 1 1) = Ok coarse_wide /\
  (exists ys,
     snd (execute 100 coarse_wide (repeat x4 11)) = Ok (poised, ys)) /\
  reachable flat_design poised /\
  (exists y, passes 3 (push_both poised x4, [], 0) = Some (spinning, y, 3)) /\
  f_div (f_of_uint (k spinning)) (f_of_uint (k_out spinning)) = fl 22 100 /\
  beta spinning = fl 22 100 /\
  q spinning = f_neg (fl 1 1) /\
  q_hat spinning = f_neg (fl 22 100) /\
  del spinning = S754_zero false /\
  b spinning = 0 /\ npfb spinning = 1 /\
  f_add (tau spinning) (del spinning) = tau spinning /\
  (forall fuel, snd (step fuel poised x4) = OutOfFuel).
Proof.
  assert (Hp : exists y, passes 3 (push_both poised x4, [], 0)
                         = Some (spinning, y, 3)).
  { eexists. vm_compute. reflexivity. }
  split; [exact coarse_eq|]. split; [vm_compute; reflexivity|].
  split; [exact coarse_wide_eq|]. split; [exact poised_eq|].
  split.
  { destruct poised_eq as (ys & He).
    eapply reach_execute; [exact reachable_coarse_wide|exact He]. }
  split; [exact Hp|].
  do 8 (split; [vm_compute; reflexivity|]).
  intros fuel. destruct Hp as (y & Hp).
  pose proof (@emit_loop_after_passes _ _ _ _ 3 _ _ Hp
                (fun f => spinning_spins f y 3) fuel) as H.
  unfold step.
  destruct (emit_loop fuel (push_both poised x4, [], 0)) as [evs res].
  cbn in H. subst res. reflexivity.
Qed.


(** With the loop bandwidth 15728638 * 2^-45 from there on, 2000
    further input samples 4 + 0i take q_hat to -14765074 * 2^-26, which
    is 1124 units in the last place beyond the [float] 0.22f. *)
Lemma single_precision_q_hat_drifts :
  to_Q slight = Some (15728638 # 35184372088832)%Q /\
  set_lf_bw drifted slight = Ok narrow /\
  to_Q (q_hat (after (snd (execute 100 narrow
                             (repeat x4 (Z.to_nat 2000))))))
  = Some (- (14765074 # 67108864))%Q /\
  (14765074 - 14763950 = 1124)%Z.
Proof.
  split; [vm_compute; reflexivity|]. split; [vm_compute; reflexivity|].
  split; [vm_compute; reflexivity|reflexivity].
Qed.

(** *** The theorems at these runs *)

(** C1 at a call of [step] that makes three evaluations. *)
Lemma step_bank_index_witness :
  in_int (b wide) /\ npfb wide <= half_modulus /\
  Forall (fun ev => 0 <= ev_index ev < npfb wide) (fst (step 100 wide x4)).
Proof.
  assert (Hb : in_int (b wide)).
  { unfold in_int, min_int, max_int, half_modulus. cbn. lia. }
  assert (Hn : npfb wide <= half_modulus).
  { unfold half_modulus. cbn. lia. }
  split; [exact Hb|]. split; [exact Hn|].
  exact (proj2 (step_bank_index_in_range 100 wide x4) Hb Hn).
Defined.

(** X20 at the first call of [step] after [create]. *)
Lemma step_wraps_once_witness :
  snd (step 100 created x4) = Ok (stepped, stepped_out) /\
  exists (p : sync) (y : list (complex float)) (n : Z),
    snd (emit_loop 100 (push_both created x4, [], 0)) = Ok (p, y, n) /\
    loop_test p = false /\
    tau stepped = f_sub (tau p) (f_lit 1 1) /\
    bf stepped = f_sub (bf p) (f_of_uint (npfb p)) /\
    b stepped = int_sub_uint (b p) (npfb p).
Proof.
  assert (Hs : snd (step 100 created x4) = Ok (stepped, stepped_out)).
  { vm_compute. reflexivity. }
  split; [exact Hs|].
  destruct (step_wraps_once 100 created x4 Hs)
    as (p & y & n & Hloop & Ht & _ & Htau & Hbf & Hb & _).
  exists p, y, n. repeat split; assumption.
Defined.

(** C6 at a locked run of six input samples that writes three
    outputs. *)
Lemma lock_freezes_loop_witness :
  snd (execute 100 (lock tuned) (repeat x4 6)) = Ok (held, held_out) /\
  length held_out = 3%nat /\
  q held = q tuned /\ q_hat held = q_hat tuned /\
  q_prime held = q_prime tuned /\ del held = del tuned /\
  is_locked held = true.
Proof.
  assert (He : snd (execute 100 (lock tuned) (repeat x4 6))
               = Ok (held, held_out)).
  { vm_compute. reflexivity. }
  split; [exact He|]. split; [reflexivity|].
  exact (proj1 lock_freezes_loop 100%nat tuned (repeat x4 6)
               held held_out He).
Defined.

(** C7 at the prototype of three coefficients. *)
Lemma derivative_filter_witness :
  2 <= Z.of_nat (length h3) /\
  create 2 1 h3 (Z.of_nat (length h3)) = Ok created /\
  exists dh : list float,
    dmf created = firpfb_create 1 dh 3 /\
    length dh = 3%nat /\
    h_at dh 0 = f_mul (f_sub (h_at h3 1) (h_at h3 2))
                      (f_div (f_of_uint 1) (f_lit 16 1)) /\
    h_at dh 1 = f_mul (f_sub (h_at h3 2) (h_at h3 0))
                      (f_div (f_of_uint 1) (f_lit 16 1)) /\
    h_at dh 2 = f_mul (f_sub (h_at h3 0) (h_at h3 1))
                      (f_div (f_of_uint 1) (f_lit 16 1)).
Proof.
  assert (H2 : 2 <= Z.of_nat (length h3)) by (cbn; lia).
  assert (Hc : create 2 1 h3 (Z.of_nat (length h3)) = Ok created)
    by exact created_eq.
  split; [exact H2|]. split; [exact Hc|].
  destruct (derivative_filter_coefficients 2 1 h3 H2 Hc)
    as (dh & Hd & Hl & H0 & Hi & HM).
  exists dh. split; [exact Hd|]. split; [exact Hl|].
  split; [exact H0|]. split; [|exact HM].
  apply (Hi 1). cbn. lia.
Defined.

(** * Further properties of the operations *)

Section Streaming.
Context {F : Type} {FA : FloatArith F} {B : Type} {PFB : FirPfb F B}.

(** ** [execute] as a sequence of [step]s *)

Lemma execute_cons (fuel : nat) (s : symsync F B) x xs :
  execute fuel s (x :: xs) =
  match step fuel s x with
  | (evs, Ok (s1, y1)) =>
      let '(evs', res) := execute fuel s1 xs in
      (evs ++ evs',
       st <- res ;; let '(s2, y2) := st in Ok (s2, y1 ++ y2))
  | other => other
  end.
Proof.
  cbn [execute]. destruct (step fuel s x) as [evs [[s1 y1]| | |]];
    reflexivity.
Qed.

(** X1.  Running [execute] on an array is running it on a first part and
    then, from the object this leaves, on the rest: the evaluations and
    the outputs are those of the two runs, one after the other; a run
    that does not return on the first part does not return. *)
Theorem execute_app (fuel : nat) (xs1 xs2 : list (complex F)) :
  forall s : symsync F B,
    execute fuel s (xs1 ++ xs2) =
    match execute fuel s xs1 with
    | (evs, Ok (s1, y1)) =>
        let '(evs', res) := execute fuel s1 xs2 in
        (evs ++ evs',
         st <- res ;; let '(s2, y2) := st in Ok (s2, y1 ++ y2))
    | other => other
    end.
Proof.
  induction xs1 as [|x xs1 IH]; intros s.
  - cbn. destruct (execute fuel s xs2) as [evs' [[s2 y2]| | |]];
      reflexivity.
  - rewrite <- app_comm_cons, !execute_cons.
    destruct (step fuel s x) as [evs [[s1 y1]| | |]]; try reflexivity.
    rewrite IH.
    destruct (execute fuel s1 xs1) as [evs1 [[s2 y2]| | |]];
      try reflexivity.
    cbn. destruct (execute fuel s2 xs2) as [evs2 [[s3 y3]| | |]]; cbn;
      rewrite ?app_assoc; reflexivity.
Qed.

(** ** What [step] and [execute] leave as they found it *)

Lemma step_setup (fuel : nat) (s : symsync F B) x s' ys :
  snd (step fuel s x) = Ok (s', ys) ->
  same_setup s s' /\
  mf s' = firpfb_push (mf s) x /\ dmf s' = firpfb_push (dmf s) x.
Proof.
  intros Hstep.
  destruct (step_ok_inv _ _ _ Hstep) as (p & y & n & Hloop & -> & _).
  destruct (emit_loop_ok _ _ _ _ Hloop) as (_ & Hc & _).
  unfold same_configuration in Hc. cbn in Hc.
  unfold same_setup. cbn. tauto.
Qed.

Lemma execute_ok_inv (fuel : nat) (s : symsync F B) x xs s' ys :
  snd (execute fuel s (x :: xs)) = Ok (s', ys) ->
  exists s1 y1 y2,
    snd (step fuel s x) = Ok (s1, y1) /\
    snd (execute fuel s1 xs) = Ok (s', y2) /\ ys = y1 ++ y2.
Proof.
  rewrite execute_cons.
  destruct (step fuel s x) as [evs [[s1 y1]| | |]]; cbn;
    try discriminate.
  destruct (execute fuel s1 xs) as [evs' [[s2 y2]| | |]] eqn:E; cbn;
    try discriminate.
  intros [= <- <-]. exists s1, y1, y2. rewrite E. repeat split.
Qed.

(** X2.  [execute] writes the phase, the loop variables and the decimation
    counter and nothing else of the object: the rates, the number of
    sub-filters, the loop coefficients and the lock are those before
    the call, and each bank has been given the input samples, in
    order, whatever the loop did with them. *)
Theorem execute_keeps_setup (fuel : nat) (xs : list (complex F)) :
  forall (s s' : symsync F B) (ys : list (complex F)),
    snd (execute fuel s xs) = Ok (s', ys) ->
    same_setup s s' /\
    mf s' = fold_left firpfb_push xs (mf s) /\
    dmf s' = fold_left firpfb_push xs (dmf s).
Proof.
  induction xs as [|x xs IH]; intros s s' ys.
  - cbn. intros [= <- <-]. unfold same_setup. repeat split.
  - intros H. destruct (execute_ok_inv _ _ _ _ H)
      as (s1 & y1 & y2 & Hs & He & _).
    destruct (step_setup _ _ _ Hs) as (H1 & Hm & Hd).
    destruct (IH _ _ _ He) as (H2 & Hm' & Hd').
    cbn [fold_left]. rewrite <- Hm, <- Hd.
    split; [|split; assumption].
    unfold same_setup in *. decompose [and] H1. decompose [and] H2.
    repeat split; congruence.
Qed.

(** ** [step] and [execute] never exit *)

Lemma advance_phase_not_fatal (s : symsync F B) y n :
  advance_phase s y n <> Fatal.
Proof.
  unfold advance_phase. destruct (int_of_roundf _); discriminate.
Qed.

Lemma emit_body_not_fatal (s : symsync F B) y n :
  snd (emit_body s y n) <> Fatal.
Proof.
  unfold emit_body.
  destruct (decim_counter s =? k_out s); cbn [snd].
  - destruct (is_locked (set_decim_counter 0 s)); cbn [snd];
      [discriminate|apply advance_phase_not_fatal].
  - apply advance_phase_not_fatal.
Qed.

Lemma emit_loop_not_fatal (fuel : nat) :
  forall st : loop_state F B, snd (emit_loop fuel st) <> Fatal.
Proof.
  induction fuel as [|fuel IH]; intros [[s y] n]; cbn.
  - destruct (loop_test s); discriminate.
  - destruct (loop_test s); [|discriminate].
    pose proof (emit_body_not_fatal s y n) as Hb.
    destruct (emit_body s y n) as [evs [st'| | |]]; cbn in *;
      try congruence; try discriminate.
    specialize (IH st').
    destruct (emit_loop fuel st') as [evs' res']. exact IH.
Qed.

Lemma step_not_fatal (fuel : nat) (s : symsync F B) x :
  snd (step fuel s x) <> Fatal.
Proof.
  unfold step.
  pose proof (emit_loop_not_fatal fuel (push_both s x, [], 0)) as H.
  destruct (emit_loop fuel (push_both s x, [], 0))
    as [evs [[[p y] n]| | |]]; cbn in *; congruence.
Qed.

(** X3.  Neither [step] nor [execute] ever ends the process: the calls of
    [exit] are in the constructors and in the two setters.  A call
    that does not return an object converted a [float] that is not an
    [int] or did not leave its loop. *)
Theorem execute_never_exits (fuel : nat) (xs : list (complex F)) :
  forall s : symsync F B,
    snd (execute fuel s xs) <> Fatal /\
    (forall x, snd (step fuel s x) <> Fatal).
Proof.
  induction xs as [|x xs IH]; intros s;
    (split; [|intros x0; apply step_not_fatal]).
  - cbn. discriminate.
  - rewrite execute_cons.
    pose proof (step_not_fatal fuel s x) as Hs.
    destruct (step fuel s x) as [evs [[s1 y1]| | |]]; cbn in *;
      try congruence; try discriminate.
    destruct (IH s1) as (He & _).
    destruct (execute fuel s1 xs) as [evs' [[s2 y2]| | |]]; cbn in *;
      congruence.
Qed.

End Streaming.

Section Outputs.
Context {F : Type} {FA : FloatArith F} {B : Type} {PFB : FirPfb F B}.

(** ** The output samples of [step] *)

Lemma mf_indices_app (e1 e2 : list event) :
  mf_indices (e1 ++ e2) = mf_indices e1 ++ mf_indices e2.
Proof. unfold mf_indices. now rewrite filter_app, map_app. Qed.

Lemma mf_indices_length (e : list event) :
  (length (mf_indices e) <= length e)%nat.
Proof.
  unfold mf_indices. rewrite length_map. apply filter_length_le.
Qed.

Lemma mf_indices_In (e : list event) (i : Z) :
  In i (mf_indices e) <-> In (Evaluate MF i) e.
Proof.
  unfold mf_indices. rewrite in_map_iff. split.
  - intros ([[] j] & <- & H); apply filter_In in H; cbn in H;
      destruct H as [H E]; [exact H|discriminate].
  - intros H. exists (Evaluate MF i). split; [reflexivity|].
    apply filter_In. now split.
Qed.

Lemma scaled_output_ext (s s' : symsync F B) (i : Z) :
  mf s' = mf s -> k s' = k s -> scaled_output s' i = scaled_output s i.
Proof. unfold scaled_output. now intros -> ->. Qed.

Lemma store_at_end (y : list (complex F)) (n : Z) (v : complex F) :
  length y = Z.to_nat n -> store y n v = y ++ [v].
Proof. unfold store. intros <-. now rewrite firstn_all. Qed.

Lemma Forall_firstn_of {A : Type} (P : A -> Prop) (n : nat) (l : list A) :
  Forall P l -> Forall P (firstn n l).
Proof.
  revert l. induction n as [|n IH]; intros l H; cbn; [constructor|].
  destruct H as [|a l Ha Hl]; constructor; auto.
Qed.

(** One pass of the body: the first evaluation is the matched bank's,
    at the index [b], and what is stored is its output over k. *)
Lemma emit_body_store (s : symsync F B) y n s' y' n' :
  snd (emit_body s y n) = Ok (s', y', n') ->
  In (Evaluate MF (b s)) (fst (emit_body s y n)) /\
  (length (mf_indices (fst (emit_body s y n))) = 1)%nat /\
  y' = store y n (scaled_output s (b s)).
Proof.
  intros H. split; [|split].
  - unfold emit_body.
    destruct (decim_counter s =? k_out s);
      [destruct (is_locked (set_decim_counter 0 s))|]; cbn; auto.
  - unfold emit_body.
    destruct (decim_counter s =? k_out s);
      [destruct (is_locked (set_decim_counter 0 s))|]; reflexivity.
  - destruct (emit_body_cases _ _ _ H) as
      [(_ & _ & _ & -> & _)|[(_ & _ & Ha)|(_ & Ha)]];
      [reflexivity| |];
      apply advance_phase_ok in Ha; decompose [and] Ha; subst y';
      reflexivity.
Qed.

Lemma emit_body_unlocked (s : symsync F B) y n s' y' n' :
  is_locked s = false ->
  snd (emit_body s y n) = Ok (s', y', n') ->
  mf_indices (fst (emit_body s y n)) = [b s] /\
  (1 <= length (fst (emit_body s y n)))%nat /\
  y' = store y n (scaled_output s (b s)) /\ n' = wrap_uint (n + 1).
Proof.
  intros L H.
  destruct (emit_body_store _ _ _ H) as (_ & _ & Hy).
  split; [|split; [|split; [exact Hy|]]].
  - unfold emit_body.
    destruct (decim_counter s =? k_out s); [|reflexivity].
    change (is_locked (set_decim_counter 0 s)) with (is_locked s).
    rewrite L. reflexivity.
  - unfold emit_body.
    destruct (decim_counter s =? k_out s); [|cbn; lia].
    change (is_locked (set_decim_counter 0 s)) with (is_locked s).
    rewrite L. cbn. lia.
  - destruct (emit_body_cases _ _ _ H) as
      [(_ & L' & _)|[(_ & _ & Ha)|(_ & Ha)]];
      [congruence| |];
      apply advance_phase_ok in Ha; decompose [and] Ha; assumption.
Qed.

Lemma emit_loop_outputs_unlocked (fuel : nat) :
  forall (s : symsync F B) y n s' y' n',
    is_locked s = false ->
    0 <= n -> length y = Z.to_nat n ->
    n + Z.of_nat (length (fst (emit_loop fuel (s, y, n)))) < modulus ->
    snd (emit_loop fuel (s, y, n)) = Ok (s', y', n') ->
    y' = y ++ map (scaled_output s)
                  (mf_indices (fst (emit_loop fuel (s, y, n)))) /\
    length y' = Z.to_nat n'.
Proof.
  induction fuel as [|fuel IH]; intros s y n s' y' n' L Hn Hy;
    cbn [emit_loop].
  - destruct (loop_test s); cbn [fst snd]; [discriminate|].
    intros _ [= <- <- <-]. now rewrite app_nil_r.
  - destruct (loop_test s); cbn [fst snd].
    2:{ intros _ [= <- <- <-]. now rewrite app_nil_r. }
    pose proof (@emit_body_unlocked s y n) as Hb.
    pose proof (@emit_body_ok _ _ _ _ s y n) as Hok.
    destruct (emit_body s y n) as [evs [[[s1 y1] n1]| | |]];
      cbn [fst snd] in *; try (intros _; discriminate).
    destruct (Hb _ _ _ L eq_refl) as (Hi & Hl & -> & ->).
    destruct (Hok _ _ _ eq_refl) as (Hc & _).
    unfold same_configuration in Hc. decompose [and] Hc.
    specialize (IH s1 (store y n (scaled_output s (b s)))
                   (wrap_uint (n + 1)) s' y' n').
    destruct (emit_loop fuel (s1, store y n (scaled_output s (b s)),
                             wrap_uint (n + 1))) as [evs' res'].
    cbn [fst snd] in *. rewrite length_app, Nat2Z.inj_add. intros Hlt E.
    assert (Hw : wrap_uint (n + 1) = n + 1).
    { unfold wrap_uint. apply Z.mod_small. lia. }
    rewrite Hw in IH. rewrite store_at_end in IH by exact Hy.
    destruct IH as (-> & Hlen); try congruence; try lia.
    { rewrite length_app, Hy. cbn [length]. lia. }
    split; [|exact Hlen].
    rewrite mf_indices_app, map_app, Hi, <- app_assoc. cbn [map app].
    f_equal. f_equal. apply map_ext. intros i.
    apply scaled_output_ext; assumption.
Qed.

(** X4.  The outputs of a call of [step] on an unlocked object are the
    outputs of the matched bank at the indices of its evaluations, in
    order, each divided by k: one output for each evaluation of the
    matched bank.  The bank is the one that has just been given the
    input sample.  (The count of outputs is an [unsigned int]; the
    call is taken to make fewer than 2^32 evaluations.) *)
Theorem step_outputs_unlocked (fuel : nat) (s : symsync F B)
    (x : complex F) (s' : symsync F B) (ys : list (complex F)) :
  is_locked s = false ->
  Z.of_nat (length (fst (step fuel s x))) < modulus ->
  snd (step fuel s x) = Ok (s', ys) ->
  ys = map (scaled_output s') (mf_indices (fst (step fuel s x))) /\
  mf s' = firpfb_push (mf s) x.
Proof.
  intros L Hlt Hstep.
  destruct (step_setup _ _ _ Hstep) as ((Hk & _) & Hm & _).
  split; [|exact Hm].
  destruct (step_ok_inv _ _ _ Hstep) as (p & y & n & Hloop & _ & ->).
  pose proof (@emit_loop_outputs_unlocked fuel (push_both s x) [] 0
                p y n L (Z.le_refl 0) eq_refl) as H.
  unfold step in Hlt |- *.
  destruct (emit_loop fuel (push_both s x, [], 0)) as [evs res].
  cbn in *. destruct (H Hlt Hloop) as (-> & Hlen).
  rewrite <- Hlen, firstn_all.
  apply map_ext. intros i. symmetry.
  apply scaled_output_ext; [exact Hm|exact Hk].
Qed.

Lemma emit_loop_outputs (fuel : nat) (P : complex F -> Prop) :
  forall (s : symsync F B) y n s' y' n',
    (forall i, In (Evaluate MF i) (fst (emit_loop fuel (s, y, n))) ->
               P (scaled_output s i)) ->
    Forall P y ->
    snd (emit_loop fuel (s, y, n)) = Ok (s', y', n') ->
    Forall P y' /\
    (length y' <= length y
                  + length (mf_indices (fst (emit_loop fuel (s, y, n)))))%nat.
Proof.
  induction fuel as [|fuel IH]; intros s y n s' y' n'; cbn [emit_loop].
  - destruct (loop_test s); cbn [fst snd]; [discriminate|].
    intros _ Hy [= <- <- <-]. split; [exact Hy|lia].
  - destruct (loop_test s); cbn [fst snd].
    2:{ intros _ Hy [= <- <- <-]. split; [exact Hy|lia]. }
    pose proof (@emit_body_store s y n) as Hb.
    pose proof (@emit_body_ok _ _ _ _ s y n) as Hok.
    destruct (emit_body s y n) as [evs [[[s1 y1] n1]| | |]]; cbn [fst snd] in *;
      try (intros _ _; discriminate).
    destruct (Hb _ _ _ eq_refl) as (Hin & Hone & ->).
    destruct (Hok _ _ _ eq_refl) as (Hc & _).
    unfold same_configuration in Hc. decompose [and] Hc.
    specialize (IH s1 (store y n (scaled_output s (b s))) n1 s' y' n').
    destruct (emit_loop fuel (s1, store y n (scaled_output s (b s)), n1))
      as [evs' res'].
    cbn [fst snd] in *. intros HP Hy E.
    destruct IH as (HF & Hlen).
    + intros i Hi. rewrite (@scaled_output_ext s s1) by assumption.
      apply HP. apply in_or_app. now right.
    + unfold store. apply Forall_app. split.
      * now apply Forall_firstn_of.
      * constructor; [|constructor]. apply HP. apply in_or_app. now left.
    + exact E.
    + split; [exact HF|].
      rewrite mf_indices_app, length_app, Hone.
      unfold store in Hlen. rewrite length_app in Hlen. cbn [length] in Hlen.
      rewrite length_firstn in Hlen. lia.
Qed.

(** X5.  Locked or not, every output of a call of [step] is the output of
    the matched bank, after the input sample was given to it, at an
    index that the call evaluated, divided by k; and there are at most
    as many outputs as evaluations of the matched bank. *)
Theorem step_outputs_from_matched_bank (fuel : nat) (s : symsync F B)
    (x : complex F) (s' : symsync F B) (ys : list (complex F)) :
  snd (step fuel s x) = Ok (s', ys) ->
  Forall (fun v => exists i, In (Evaluate MF i) (fst (step fuel s x)) /\
                             v = scaled_output s' i) ys /\
  (length ys <= length (mf_indices (fst (step fuel s x))))%nat /\
  mf s' = firpfb_push (mf s) x.
Proof.
  intros Hstep.
  destruct (step_setup _ _ _ Hstep) as ((Hk & _) & Hm & _).
  destruct (step_ok_inv _ _ _ Hstep) as (p & y & n & Hloop & _ & ->).
  pose proof (@emit_loop_outputs fuel
    (fun v => exists i,
         In (Evaluate MF i) (fst (emit_loop fuel (push_both s x, [], 0))) /\
         v = scaled_output s' i) (push_both s x) [] 0 p y n) as H.
  unfold step.
  destruct (emit_loop fuel (push_both s x, [], 0)) as [evs res].
  cbn in *. destruct H as (HF & Hlen).
  - intros i Hi. exists i. split; [exact Hi|].
    symmetry. apply scaled_output_ext; [exact Hm|exact Hk].
  - constructor.
  - exact Hloop.
  - split; [now apply Forall_firstn_of|]. split; [|exact Hm].
    rewrite length_firstn. lia.
Qed.

End Outputs.

Section Idle.
Context {F : Type} {FA : FloatArith F} {B : Type} {PFB : FirPfb F B}.

(** ** Calls that write no output *)

Lemma execute_idle (fuel : nat) (xs : list (complex F)) :
  forall s : symsync F B,
    in_int (b s) -> in_uint (npfb s) ->
    min_int <= b s - Z.of_nat (length xs) * npfb s ->
    (forall j, 0 <= j < Z.of_nat (length xs) ->
               npfb s <= uint_of_int (b s - j * npfb s)) ->
    exists s',
      execute fuel s xs = ([], Ok (s', [])) /\
      b s' = b s - Z.of_nat (length xs) * npfb s /\
      tau s' = wrap_tau (length xs) (tau s) /\
      bf s' = wrap_bf (length xs) (npfb s) (bf s) /\
      del s' = del s /\ q_hat s' = q_hat s /\
      decim_counter s' = decim_counter s.
Proof.
  induction xs as [|x xs IH]; intros s Hi Hu Hlow Hidle.
  - exists s. cbn. repeat split. lia.
  - assert (T : loop_test s = false).
    { unfold loop_test. apply Z.ltb_ge.
      specialize (Hidle 0). rewrite Z.mul_0_l, Z.sub_0_r in Hidle.
      apply Hidle. cbn [length]. lia. }
    rewrite execute_cons, (@step_without_output _ _ _ _ fuel s x T).
    set (s1 := symbol_wrap (push_both s x)).
    cbn [length] in Hlow, Hidle. rewrite Nat2Z.inj_succ in Hlow, Hidle.
    assert (Hb1 : b s1 = b s - npfb s).
    { unfold s1. cbn. apply int_sub_uint_exact; auto.
      unfold in_uint in Hu. nia. }
    assert (Hn1 : npfb s1 = npfb s) by reflexivity.
    destruct (IH s1) as (s' & He & Hb & Ht & Hf & Hd & Hq & Hc).
    + unfold in_int, in_uint in *. rewrite Hb1. nia.
    + now rewrite Hn1.
    + rewrite Hb1, Hn1. lia.
    + intros j Hj. rewrite Hb1, Hn1.
      replace (b s - npfb s - j * npfb s) with (b s - (j + 1) * npfb s)
        by lia.
      apply Hidle. lia.
    + exists s'. rewrite He. cbn [bind app].
      split; [reflexivity|].
      rewrite Hb, Ht, Hf, Hd, Hq, Hc, Hb1, Hn1.
      unfold wrap_tau, wrap_bf. cbn [length]. rewrite !Nat.iter_succ_r.
      repeat split. lia.
Qed.

(** X6.  When the bank index of an object is [j] whole banks or more ahead
    ([b >= j * npfb]), the next [j] input samples produce no output and
    no evaluation of a bank: each call of [step] gives the sample to
    the two banks and takes one symbol off the phase, so that [b] goes
    down by [npfb] a call.  This is how the object decimates: after a
    phase advance of [del] near k, the next k - 1 samples are only
    stored. *)
Theorem execute_skips_whole_symbols (fuel : nat) (xs : list (complex F))
    (s : symsync F B) :
  in_uint (npfb s) -> b s <= max_int ->
  Z.of_nat (length xs) * npfb s <= b s ->
  exists s',
    execute fuel s xs = ([], Ok (s', [])) /\
    b s' = b s - Z.of_nat (length xs) * npfb s /\
    tau s' = wrap_tau (length xs) (tau s) /\
    bf s' = wrap_bf (length xs) (npfb s) (bf s) /\
    del s' = del s /\ q_hat s' = q_hat s /\
    decim_counter s' = decim_counter s.
Proof.
  intros Hu Hmax Hb.
  assert (H0 : 0 <= Z.of_nat (length xs) * npfb s).
  { unfold in_uint in Hu. nia. }
  apply execute_idle; auto.
  - unfold in_int, min_int, max_int, half_modulus in *. lia.
  - unfold min_int, half_modulus. lia.
  - intros j Hj. unfold uint_of_int.
    unfold in_uint, max_int, half_modulus, modulus in *.
    rewrite Z.mod_small; nia.
Qed.

(** X7.  Once the bank index of an object is negative it stays negative:
    [step] compares it with [npfb] as an [unsigned int], finds it not
    below, and writes no output and makes no evaluation, for as many
    input samples as [b - j * npfb] remains an [int]; each call takes
    it [npfb] further down. *)
Theorem execute_stalls_on_negative_index (fuel : nat)
    (xs : list (complex F)) (s : symsync F B) :
  b s < 0 -> 0 <= npfb s <= half_modulus ->
  min_int <= b s - Z.of_nat (length xs) * npfb s ->
  exists s',
    execute fuel s xs = ([], Ok (s', [])) /\
    b s' = b s - Z.of_nat (length xs) * npfb s /\
    tau s' = wrap_tau (length xs) (tau s) /\
    bf s' = wrap_bf (length xs) (npfb s) (bf s) /\
    del s' = del s /\ q_hat s' = q_hat s /\
    decim_counter s' = decim_counter s.
Proof.
  intros Hneg Hn Hlow.
  apply execute_idle; auto.
  - unfold in_int, min_int, max_int, half_modulus in *. nia.
  - unfold in_uint, half_modulus, modulus in *. lia.
  - intros j Hj. unfold uint_of_int.
    unfold min_int, half_modulus, modulus in *.
    assert (E : (b s - j * npfb s) mod 2 ^ 32
                = b s - j * npfb s + 2 ^ 32).
    { symmetry. apply Z.mod_unique with (q := -1); nia. }
    rewrite E. nia.
Qed.

(** ** The decimation counter *)

(** X8.  The decimation counter of an object with [1 <= k_out] stays within
    [0, k_out] through [execute]: when it reaches [k_out] the next
    pass of the loop sets it to 0, and otherwise a pass adds one.  So
    it cannot step over [k_out], the one value at which the loop
    filter is updated. *)
Theorem decim_counter_bounded (fuel : nat) (xs : list (complex F))
    (s s' : symsync F B) (ys : list (complex F)) :
  1 <= k_out s < modulus -> 0 <= decim_counter s <= k_out s ->
  snd (execute fuel s xs) = Ok (s', ys) ->
  0 <= decim_counter s' <= k_out s' /\ k_out s' = k_out s.
Proof.
  intros Hk Hc He.
  pose (P := fun t : symsync F B =>
               k_out t = k_out s /\ 0 <= decim_counter t <= k_out t).
  assert (HP : P s') .
  { apply (@execute_invariant _ _ _ _ P) with (fuel := fuel) (xs := xs)
                                             (s := s) (ys := ys).
    - intros t x Ht. exact Ht.
    - intros t y n t' y' n' (Hk1 & Hc1) _ Hb.
      assert (Hw : forall c, 0 <= c < k_out t -> wrap_uint (c + 1) = c + 1).
      { intros c Hcr. unfold wrap_uint. apply Z.mod_small. lia. }
      destruct (emit_body_cases _ _ _ Hb) as
        [(_ & _ & -> & _)|[(_ & _ & Ha)|(Hne & Ha)]].
      + unfold P. cbn. lia.
      + apply advance_phase_ok in Ha.
        destruct Ha as ((_ & _ & Hko & _) & _ & _ & _ & _ & Hd & _).
        destruct (advance_internal_loop_configuration
                    (set_decim_counter 0 t)
                    (firpfb_execute (mf t) (b t))
                    (firpfb_execute (dmf t) (b t)))
          as ((_ & _ & Hko2 & _) & _ & _ & _ & Hdc).
        change (k_out (set_decim_counter 0 t)) with (k_out t) in Hko2.
        change (decim_counter (set_decim_counter 0 t)) with 0 in Hdc.
        unfold P. rewrite Hko, Hd, Hko2, Hdc, (Hw 0) by lia. lia.
      + apply advance_phase_ok in Ha.
        destruct Ha as ((_ & _ & Hko & _) & _ & _ & _ & _ & Hd & _).
        unfold P. rewrite Hko, Hd, Hw by lia. lia.
    - intros t Ht _. exact Ht.
    - unfold P. lia.
    - exact He. }
  destruct HP as (E & H). split; [exact H|exact E].
Qed.

End Idle.

Section LockedTrace.
Context {F : Type} {FA : FloatArith F} {B : Type} {PFB : FirPfb F B}.

(** ** The derivative bank of a locked object *)

Lemma emit_body_locked_events (s : symsync F B) y n :
  is_locked s = true ->
  Forall (fun ev => ev_bank ev = MF) (fst (emit_body s y n)).
Proof.
  intros L. unfold emit_body.
  destruct (decim_counter s =? k_out s).
  - change (is_locked (set_decim_counter 0 s)) with (is_locked s).
    rewrite L. cbn [fst]. repeat constructor.
  - cbn [fst]. repeat constructor.
Qed.

Lemma emit_loop_locked_events (fuel : nat) :
  forall (s : symsync F B) y n,
    is_locked s = true ->
    Forall (fun ev => ev_bank ev = MF) (fst (emit_loop fuel (s, y, n))).
Proof.
  induction fuel as [|fuel IH]; intros s y n L; cbn [emit_loop].
  - destruct (loop_test s); constructor.
  - destruct (loop_test s); [|constructor].
    pose proof (@emit_body_locked_events s y n L) as Hev.
    pose proof (@emit_body_ok _ _ _ _ s y n) as Hok.
    destruct (emit_body s y n) as [evs [[[s1 y1] n1]| | |]];
      cbn [fst snd] in *; try exact Hev.
    destruct (Hok _ _ _ eq_refl) as ((_ & _ & _ & L1 & _) & _).
    specialize (IH s1 y1 n1 ltac:(congruence)).
    destruct (emit_loop fuel (s1, y1, n1)) as [evs' res'].
    cbn [fst] in *. apply Forall_app. split; assumption.
Qed.

(** X9.  A locked object never evaluates its derivative bank: every
    evaluation that [execute] makes on it, over the whole input array
    and whether or not the call returns, is an evaluation of the
    matched bank. *)
Theorem locked_never_evaluates_derivative_bank (fuel : nat)
    (xs : list (complex F)) :
  forall s : symsync F B,
    is_locked s = true ->
    Forall (fun ev => ev_bank ev = MF) (fst (execute fuel s xs)).
Proof.
  induction xs as [|x xs IH]; intros s L; [constructor|].
  rewrite execute_cons.
  assert (Hs : Forall (fun ev => ev_bank ev = MF) (fst (step fuel s x))).
  { unfold step.
    pose proof (@emit_loop_locked_events fuel (push_both s x) [] 0 L) as H.
    destruct (emit_loop fuel (push_both s x, [], 0)) as [evs res].
    exact H. }
  pose proof (@step_setup _ _ _ _ fuel s x) as Hset.
  destruct (step fuel s x) as [evs [[s1 y1]| | |]]; cbn [fst snd] in *;
    try exact Hs.
  destruct (Hset s1 y1 eq_refl) as ((_ & _ & _ & _ & _ & _ & _ & L1) & _).
  specialize (IH s1 ltac:(congruence)).
  destruct (execute fuel s1 xs) as [evs' res'].
  cbn [fst] in *. apply Forall_app. split; assumption.
Qed.

End LockedTrace.

Section ReachableIndices.
Context {F : Type} {FA : FloatArith F} {B : Type} {PFB : FirPfb F B}.
Variable design : Z -> Z -> Z -> F -> F -> list F.

(** X10.  From every state that the public operations produce, every
    evaluation of a sub-filter during [execute], in the matched or in
    the derivative bank, over the whole input array, is at an index
    [0 <= b < npfb], for every bank of at most 2^31 sub-filters. *)
Theorem execute_bank_index_safe (fuel : nat) (xs : list (complex F))
    (s : symsync F B) :
  reachable design s -> npfb s <= half_modulus ->
  Forall (fun ev => 0 <= ev_index ev < npfb s) (fst (execute fuel s xs)).
Proof.
  intros Hr Hn. apply execute_bank_index_in_range; [|exact Hn].
  exact (reachable_in_int Hr).
Qed.

End ReachableIndices.

Section Constructed.
Context {F : Type} {FA : FloatArith F} {B : Type} {PFB : FirPfb F B}.
Variable design : Z -> Z -> Z -> F -> F -> list F.

(** ** The object that [create] returns *)

(** X11.  Neither constructor reads a field of the object before it
    has assigned it: whatever the allocated memory holds, [create] and
    [create_rnyquist] give, for the same arguments, the same result,
    field for field. *)
Theorem constructors_initialise_every_field (g g' : symsync F B)
    (_k _npfb : Z) :
  (forall (_h : list F) (_h_len : Z),
      create_from g _k _npfb _h _h_len
      = create_from g' _k _npfb _h _h_len) /\
  (forall (_type _m : Z) (_beta : F),
      create_rnyquist_from design g _type _k _m _beta _npfb
      = create_rnyquist_from design g' _type _k _m _beta _npfb).
Proof.
  split; [intros; apply create_from_garbage|].
  intros _type _m _beta. unfold create_rnyquist_from.
  destruct (_k <? 2); [reflexivity|].
  destruct (_m =? 0); [reflexivity|].
  destruct (_ || _); [reflexivity|].
  destruct (copy_coeffs _ _ _) as [H| | |]; cbn [bind];
    try reflexivity.
  apply create_from_garbage.
Qed.

(** X12.  A new object is unlocked, decimates to one sample per symbol
    (k_out = 1, rate 1/k, step 1/rate), has its phase, its index, its
    three error estimates and its decimation counter at zero, and has
    the loop coefficients of the bandwidth 0.01:
    alpha = 1 - 0.01 and beta = 0.22 * 0.01.  Its matched bank is the
    bank of the prototype, cleared. *)
Theorem create_defaults (_k _npfb : Z) (_h : list F) (_h_len : Z)
    (s : symsync F B) :
  create _k _npfb _h _h_len = Ok s ->
  k s = _k /\ npfb s = _npfb /\ k_out s = 1 /\ is_locked s = false /\
  decim_counter s = 0 /\ b s = 0 /\
  tau s = f_lit 0 1 /\ bf s = f_lit 0 1 /\
  q s = f_lit 0 1 /\ q_hat s = f_lit 0 1 /\ q_prime s = f_lit 0 1 /\
  r s = f_div (f_of_uint 1) (f_of_uint _k) /\
  del s = f_div (f_lit 1 1) (r s) /\
  alpha s = f_sub (f_lit 1 1) (f_lit 1 100) /\
  beta s = f_mul (f_lit 22 100) (f_lit 1 100) /\
  h_len s = wrap_uint (_h_len - 1) / _npfb /\
  mf s = firpfb_clear (firpfb_create _npfb _h _h_len).
Proof.
  intros Hc. unfold create in Hc. apply create_from_inv in Hc.
  destruct Hc as (_ & _ & _ & dh & _ & ->). cbn. repeat split.
Qed.

(** ** [setrate] *)

(** X13.  [setrate] writes the rate and the step [1 / rate] and nothing
    else, and the step it writes lasts until the next update of the
    loop filter: [advance_internal_loop] computes the step anew from k
    and k_out, so after it only the field [r] remembers the call. *)
Theorem setrate_until_next_update (s : symsync F B) (_rate : F)
    (u v : complex F) :
  setrate s _rate = set_del (f_div (f_lit 1 1) _rate) (set_r _rate s) /\
  advance_internal_loop (setrate s _rate) u v
  = set_r _rate (advance_internal_loop s u v).
Proof.
  split; [reflexivity|].
  unfold advance_internal_loop, setrate. cbn.
  destruct (f_gt _ _); cbn; [reflexivity|].
  destruct (f_lt _ _); reflexivity.
Qed.

End Constructed.

Section SinglePrecision.
Context {B : Type} {PFB : FirPfb Binary32.float B}.
Variable design :
  Z -> Z -> Z -> Binary32.float -> Binary32.float -> list Binary32.float.

(** ** Construction in single precision: exits and results *)

(** X14.  In single precision, what [create] does with a prototype array
    of M coefficients is decided by its arguments: it ends the process
    exactly when k < 2, M = 0 or the number of sub-filters is 0; with
    other arguments it reads outside the array exactly when M = 1; and
    it returns an object exactly when, besides, M is at least 2. *)
Theorem create_outcome (_k _npfb : Z) (_h : list Binary32.float) :
  let M := Z.of_nat (length _h) in
  (create (B := B) _k _npfb _h M = Fatal <->
   _k < 2 \/ M = 0 \/ _npfb = 0) /\
  (create (B := B) _k _npfb _h M = Undefined <->
   2 <= _k /\ _npfb <> 0 /\ M = 1) /\
  ((exists s : symsync Binary32.float B, create _k _npfb _h M = Ok s) <->
   2 <= _k /\ _npfb <> 0 /\ 2 <= M).
Proof.
  intros M.
  assert (Hbw : default_bandwidth_valid (F := Binary32.float))
    by reflexivity.
  pose proof (@create_from_fatal_iff _ _ B _ blank _k _npfb _h M Hbw)
    as Hfatal.
  fold (create (B := B) _k _npfb _h M) in Hfatal.
  split; [exact Hfatal|].
  destruct (Z.lt_ge_cases _k 2) as [Hk|Hk].
  { assert (E : create (B := B) _k _npfb _h M = Fatal)
      by (apply Hfatal; auto).
    rewrite E. split; split; try discriminate; try lia.
    intros (s & Hs). discriminate. }
  destruct (Z.eq_dec _npfb 0) as [Hn|Hn].
  { assert (E : create (B := B) _k _npfb _h M = Fatal)
      by (apply Hfatal; auto).
    rewrite E. split; split; try discriminate; try lia.
    intros (s & Hs). discriminate. }
  destruct _h as [|x [|x' rest]].
  - assert (E : create (B := B) _k _npfb [] M = Fatal)
      by (apply Hfatal; auto).
    rewrite E. split; split; try discriminate; unfold M; cbn; try lia.
    intros (s & Hs). discriminate.
  - assert (E : create (B := B) _k _npfb [x] M = Undefined)
      by (apply create_from_single; assumption).
    rewrite E. split; split; unfold M; cbn; try lia; auto.
    intros (s & Hs). discriminate.
  - destruct (@create_from_ok _ _ B _ blank _k _npfb (x :: x' :: rest))
      as (s & Hs); auto; [cbn; lia|].
    fold M in Hs. fold (create (B := B) _k _npfb (x :: x' :: rest) M) in Hs.
    rewrite Hs. split; split; try discriminate; unfold M;
      cbn [length]; try lia.
    intros _. now exists s.
Qed.

Lemma copy_coeffs_reads (Hf : list Binary32.float) :
  forall (count : nat) (i : Z),
    0 <= i -> i + Z.of_nat count <= Z.of_nat (length Hf) ->
    exists H,
      copy_coeffs Hf i count = Ok H /\ length H = count /\
      forall j, 0 <= j < Z.of_nat count -> h_at H j = h_at Hf (i + j).
Proof.
  induction count as [|count IH]; intros i Hi Hle; cbn [copy_coeffs].
  - exists []. repeat split. cbn. lia.
  - rewrite read_in_range by lia. cbn [bind].
    destruct (IH (i + 1)) as (H & -> & Hlen & Hat); [lia|lia|].
    cbn [bind]. eexists. split; [reflexivity|].
    split; [cbn; now rewrite Hlen|].
    intros j Hj. destruct (Z.eq_dec j 0) as [->|Hj0].
    + rewrite Z.add_0_r. reflexivity.
    + unfold h_at at 1.
      replace (Z.to_nat j) with (S (Z.to_nat (j - 1))) by lia.
      cbn [nth]. fold (h_at H (j - 1)). rewrite Hat by lia.
      f_equal. lia.
Qed.

(** X15.  [create_rnyquist] with k at least 2, a delay of m symbols, a
    rolloff that compares within [0, 1] and a bank of npfb
    sub-filters, where [2*npfb*k*m + 1] is an [unsigned int] and the
    designer has filled that many coefficients, is [create] on those
    coefficients: it returns an object with sub-filters of length
    [2*k*m]. *)
Theorem create_rnyquist_returns_object (_type _k _m : Z)
    (_beta : Binary32.float) (_npfb : Z) :
  let M := 2 * _npfb * _k * _m + 1 in
  let Hf := design _type (_k * _npfb) _m _beta (f_lit 0 1) in
  2 <= _k -> 1 <= _m -> 1 <= _npfb ->
  f_lt _beta (f_lit 0 1) || f_gt _beta (f_lit 1 1) = false ->
  M < modulus -> M <= Z.of_nat (length Hf) ->
  exists (H : list Binary32.float) (s : symsync Binary32.float B),
    length H = Z.to_nat M /\
    (forall i, 0 <= i < M -> h_at H i = h_at Hf i) /\
    create_rnyquist design _type _k _m _beta _npfb = Ok s /\
    create _k _npfb H M = Ok s /\
    h_len s = 2 * _k * _m /\ k s = _k /\ npfb s = _npfb.
Proof.
  intros M Hf Hk Hm Hn Hb HM Hfill.
  assert (HM5 : 5 <= M) by (unfold M; nia).
  assert (Hkn : wrap_uint (_k * _npfb) = _k * _npfb).
  { unfold wrap_uint. apply Z.mod_small. unfold M in HM. nia. }
  assert (HMw : wrap_uint M = M).
  { unfold wrap_uint. apply Z.mod_small. lia. }
  destruct (@copy_coeffs_reads Hf (Z.to_nat M) 0) as (H & Hcopy & Hlen & Hat);
    [lia|lia|].
  assert (HlenZ : Z.of_nat (length H) = M) by lia.
  destruct (@create_from_ok _ _ B _ blank _k _npfb H) as (s & Hs);
    [reflexivity|lia|lia|lia|].
  fold (create (B := B) _k _npfb H (Z.of_nat (length H))) in Hs.
  assert (Hks : k s = _k /\ npfb s = _npfb).
  { pose proof Hs as Hinv. unfold create in Hinv.
    apply create_from_inv in Hinv.
    destruct Hinv as (_ & _ & _ & dh & _ & ->). split; reflexivity. }
  destruct Hks as (Hks & Hns).
  rewrite HlenZ in Hs.
  exists H, s. split; [exact Hlen|]. split.
  { intros i Hi. rewrite Hat by lia. reflexivity. }
  split.
  { unfold create_rnyquist, create_rnyquist_from.
    destruct (Z.ltb_spec _k 2); [lia|].
    destruct (Z.eqb_spec _m 0); [lia|].
    rewrite Hb. fold M. rewrite Hkn, HMw. fold Hf. rewrite Hcopy.
    exact Hs. }
  split; [exact Hs|]. split; [|auto].
  pose proof Hs as Hinv. unfold create in Hinv.
  apply create_from_inv in Hinv.
  destruct Hinv as (_ & _ & _ & dh & _ & ->). cbn [h_len].
  unfold wrap_uint. rewrite Z.mod_small by lia.
  unfold M. replace (2 * _npfb * _k * _m + 1 - 1)
    with (2 * _k * _m * _npfb) by lia.
  apply Z.div_mul. lia.
Qed.

(** X16.  [create_rnyquist] ends the process exactly when k < 2, m = 0, the
    rolloff compares below 0 or above 1, or the number of sub-filters
    is 0 (which [create] finds), provided the designer has filled the
    array it was given. *)
Theorem create_rnyquist_exit_conditions (_type _k _m : Z)
    (_beta : Binary32.float) (_npfb : Z) :
  wrap_uint (2 * _npfb * _k * _m + 1) <=
    Z.of_nat (length (design _type (wrap_uint (_k * _npfb)) _m _beta
                             (f_lit 0 1))) ->
  (create_rnyquist (B := B) design _type _k _m _beta _npfb = Fatal <->
   _k < 2 \/ _m = 0 \/
   f_lt _beta (f_lit 0 1) || f_gt _beta (f_lit 1 1) = true \/ _npfb = 0).
Proof.
  intros Hfill.
  unfold create_rnyquist, create_rnyquist_from.
  destruct (Z.ltb_spec _k 2) as [Hk|Hk]; [intuition|].
  destruct (Z.eqb_spec _m 0) as [Hm|Hm]; [intuition|].
  destruct (_ || _) eqn:Hb; [intuition|].
  pose proof (Z.mod_pos_bound (2 * _npfb * _k * _m + 1) modulus
                ltac:(unfold modulus; lia)) as Hpos.
  fold (wrap_uint (2 * _npfb * _k * _m + 1)) in Hpos.
  destruct (@copy_coeffs_reads
              (design _type (wrap_uint (_k * _npfb)) _m _beta (f_lit 0 1))
              (Z.to_nat (wrap_uint (2 * _npfb * _k * _m + 1))) 0)
    as (H & -> & _); [lia|lia|]. cbn [bind].
  rewrite create_from_fatal_iff by reflexivity.
  pose proof (odd_length_nonzero (_npfb * _k * _m)) as Hodd.
  replace (2 * (_npfb * _k * _m) + 1) with (2 * _npfb * _k * _m + 1)
    in Hodd by lia.
  split.
  - intros [?|[?|?]]; [lia|contradiction|auto].
  - intros [?|[?|[?|?]]]; [lia|lia|discriminate|auto].
Qed.

End SinglePrecision.

Section SinglePrecisionLoop.
Context {B : Type} {PFB : FirPfb Binary32.float B}.
Variable design :
  Z -> Z -> Z -> Binary32.float -> Binary32.float -> list Binary32.float.

(** ** The timing error in single precision *)

Lemma single_clip_range (x : Binary32.float) :
  f_gt (clip x) (f_lit 1 1) = false /\
  f_lt (clip x) (f_neg (f_lit 1 1)) = false.
Proof.
  unfold clip.
  destruct (f_gt x (f_lit 1 1)) eqn:E1; [split; reflexivity|].
  destruct (f_lt x (f_neg (f_lit 1 1))) eqn:E2; [split; reflexivity|].
  split; assumption.
Qed.

(** X17.  In single precision, in every state that the public operations
    produce, the timing error q is neither above 1 nor below -1 (it
    is a number of [-1, 1], or not a number): [create] and [reset] set
    it to 0 and the only other assignment is the clipped one of
    [advance_internal_loop]. *)
Theorem single_precision_q_clipped (s : symsync Binary32.float B) :
  reachable design s ->
  f_gt (q s) (f_lit 1 1) = false /\
  f_lt (q s) (f_neg (f_lit 1 1)) = false.
Proof.
  revert s.
  apply (@reachable_invariant _ _ _ _ design
           (fun s => f_gt (q s) (f_lit 1 1) = false /\
                     f_lt (q s) (f_neg (f_lit 1 1)) = false)).
  - intros g _k _npfb _h _h_len s0 Hc. apply create_from_inv in Hc.
    destruct Hc as (_ & _ & _ & dh & _ & ->). split; reflexivity.
  - intros s0 x H. exact H.
  - intros s0 y n s' y' n' H _ Hb.
    destruct (emit_body_cases _ _ _ Hb) as
      [(_ & _ & -> & _)|[(_ & _ & Ha)|(_ & Ha)]].
    + exact H.
    + apply advance_phase_ok in Ha.
      destruct Ha as (_ & _ & _ & _ & _ & _ & -> & _).
      pose proof (advance_internal_loop_fields (set_decim_counter 0 s0)
                    (firpfb_execute (mf s0) (b s0))
                    (firpfb_execute (dmf s0) (b s0))) as Hf.
      cbv zeta in Hf. destruct Hf as (-> & _).
      apply single_clip_range.
    + apply advance_phase_ok in Ha.
      destruct Ha as (_ & _ & _ & _ & _ & _ & -> & _). exact H.
  - intros s0 H _. exact H.
  - intros s0 bt s'. unfold set_lf_bw.
    destruct (_ || _); [discriminate|]. intros H [= <-]. exact H.
  - intros s0 ko s' H _. unfold set_output_rate.
    destruct (ko =? 0); [discriminate|]. intros [= <-]. exact H.
  - intros s0 H. exact H.
  - intros s0 H. exact H.
  - intros s0 _. split; reflexivity.
Qed.

(** ** Arguments that the setters do not turn away *)

Lemma single_add_nan (v : Binary32.float) : f_add v S754_nan = S754_nan.
Proof. destruct v as [[]|[]| |[] m e]; reflexivity. Qed.

Lemma single_mul_nan (v : Binary32.float) : f_mul v S754_nan = S754_nan.
Proof. destruct v as [[]|[]| |[] m e]; reflexivity. Qed.

Lemma single_add_infinity (t : Binary32.float) :
  f_add t (S754_infinity false) = S754_nan \/
  f_add t (S754_infinity false) = S754_infinity false.
Proof. destruct t as [[]|[]| |[] m e]; cbn; auto. Qed.

Lemma single_phase_not_finite (t y : Binary32.float) :
  t = S754_nan \/ t = S754_infinity false ->
  int_of_roundf (f_mul t y) = None.
Proof.
  intros [->| ->]; [reflexivity|]. destruct y as [[]|[]| |[] m e];
    reflexivity.
Qed.

(** A phase advance by a step that is infinite or not a number. *)
Lemma advance_phase_not_finite (t : symsync Binary32.float B) y n :
  del t = S754_nan \/ del t = S754_infinity false ->
  advance_phase t y n = Undefined.
Proof.
  intros Hd. unfold advance_phase.
  cbn [tau del npfb bf set_decim_counter set_tau set_bf].
  rewrite single_phase_not_finite; [reflexivity|].
  destruct Hd as [-> | ->];
    [left; apply single_add_nan|apply single_add_infinity].
Qed.

Lemma emit_loop_undefined (fuel : nat) (s : symsync Binary32.float B)
    y n :
  loop_test s = true -> snd (emit_body s y n) = Undefined ->
  snd (emit_loop (S fuel) (s, y, n)) = Undefined.
Proof.
  intros T E. cbn [emit_loop]. rewrite T.
  destruct (emit_body s y n) as [evs res]. cbn in E. subst res.
  reflexivity.
Qed.

Lemma step_undefined (fuel : nat) (s : symsync Binary32.float B) x :
  loop_test s = true ->
  snd (emit_body (push_both s x) [] 0) = Undefined ->
  snd (step (S fuel) s x) = Undefined.
Proof.
  intros T E. unfold step.
  pose proof (@emit_loop_undefined fuel (push_both s x) [] 0 T E) as H.
  destruct (emit_loop (S fuel) (push_both s x, [], 0)) as [evs res].
  cbn in H. subst res. reflexivity.
Qed.

(** X18.  [setrate] does not validate the rate: with the rate 0 it stores
    the step 1/0, which is infinite, and the next call of [step] that
    advances the phase before an update of the loop filter converts a
    value that is infinite or not a number to [int], which C leaves
    undefined. *)
Theorem setrate_zero_breaks_next_step (fuel : nat)
    (s : symsync Binary32.float B) (x : complex Binary32.float) :
  loop_test s = true -> decim_counter s <> k_out s ->
  del (setrate s (f_lit 0 1)) = S754_infinity false /\
  snd (step (S fuel) (setrate s (f_lit 0 1)) x) = Undefined.
Proof.
  intros T Hc. split; [reflexivity|].
  apply step_undefined; [exact T|].
  unfold emit_body.
  change (decim_counter (push_both (setrate s (f_lit 0 1)) x))
    with (decim_counter s).
  change (k_out (push_both (setrate s (f_lit 0 1)) x)) with (k_out s).
  destruct (Z.eqb_spec (decim_counter s) (k_out s)); [contradiction|].
  cbn [snd]. apply advance_phase_not_finite. right. reflexivity.
Qed.

(** X19.  [set_lf_bw] turns away the bandwidths that compare below 0 or
    above 1; a bandwidth that is not a number compares neither way and
    is accepted.  It makes alpha and beta not numbers, and the next
    update of the loop filter then makes q_hat and the step not
    numbers: the call of [step] that performs it converts a value that
    is not a number to [int], which C leaves undefined. *)
Theorem nan_bandwidth_is_accepted (fuel : nat)
    (s : symsync Binary32.float B) (x : complex Binary32.float) :
  loop_test s = true -> decim_counter s = k_out s ->
  is_locked s = false ->
  exists s1,
    set_lf_bw s S754_nan = Ok s1 /\
    alpha s1 = S754_nan /\ beta s1 = S754_nan /\
    snd (step (S fuel) s1 x) = Undefined.
Proof.
  intros T Hc L. eexists. split; [reflexivity|].
  split; [reflexivity|]. split; [reflexivity|].
  apply step_undefined; [exact T|].
  set (s1 := push_both _ x).
  unfold emit_body.
  change (decim_counter s1) with (decim_counter s).
  change (k_out s1) with (k_out s).
  rewrite Hc, Z.eqb_refl.
  change (is_locked (set_decim_counter 0 s1)) with (is_locked s).
  rewrite L. cbn [snd].
  apply advance_phase_not_finite. left.
  match goal with
  | |- del (advance_internal_loop ?t ?u ?v) = _ =>
      pose proof (advance_internal_loop_fields t u v) as Hf
  end.
  cbv zeta in Hf. destruct Hf as (_ & Hqh & _ & Hdel & _).
  rewrite Hdel, Hqh.
  change (beta (set_decim_counter 0 s1)) with (S754_nan : Binary32.float).
  rewrite single_mul_nan.
  change (f_add S754_nan ?v) with (S754_nan : Binary32.float).
  apply single_add_nan.
Qed.

(** ** The filtered timing error in single precision *)






End SinglePrecisionLoop.

Ltac zero_sign :=
  first [left; reflexivity
        |right; eexists; eexists; split; reflexivity].

Section SinglePrecisionProduct.
Context {B : Type} {PFB : FirPfb Binary32.float B}.

(** ** The product of two complex numbers in single precision *)

Lemma mul_zero_sign (x x' y y' : Binary32.float) :
  same_but_zero_sign x x' -> same_but_zero_sign y y' ->
  same_but_zero_sign (f_mul x y) (f_mul x' y').
Proof.
  intros [->|(s & s' & -> & ->)] [->|(t & t' & -> & ->)].
  - left. reflexivity.
  - destruct x' as [sx|sx| |sx mx ex]; cbn; zero_sign.
  - destruct y' as [sy|sy| |sy my ey]; cbn; zero_sign.
  - cbn. zero_sign.
Qed.

Lemma add_zero_sign (x x' y y' : Binary32.float) :
  same_but_zero_sign x x' -> same_but_zero_sign y y' ->
  same_but_zero_sign (f_add x y) (f_add x' y').
Proof.
  intros [->|(s & s' & -> & ->)] [->|(t & t' & -> & ->)].
  - left. reflexivity.
  - destruct x' as [[]|sx| |sx mx ex], t, t'; cbn; zero_sign.
  - destruct y' as [[]|sy| |sy my ey], s, s'; cbn; zero_sign.
  - destruct s, s', t, t'; cbn; zero_sign.
Qed.

Lemma sub_zero_sign (x x' y y' : Binary32.float) :
  same_but_zero_sign x x' -> same_but_zero_sign y y' ->
  same_but_zero_sign (f_sub x y) (f_sub x' y').
Proof.
  intros [->|(s & s' & -> & ->)] [->|(t & t' & -> & ->)].
  - left. reflexivity.
  - destruct x' as [[]|sx| |sx mx ex], t, t'; cbn; zero_sign.
  - destruct y' as [[]|sy| |sy my ey], s, s'; cbn; zero_sign.
  - destruct s, s', t, t'; cbn; zero_sign.
Qed.

Lemma infinity_mul_zero_sign (x x' : Binary32.float) :
  same_but_zero_sign x x' -> f_mul f_infinity x = f_mul f_infinity x'.
Proof. intros [->|(s & s' & -> & ->)]; reflexivity. Qed.

(** X21.  The two parts that the product of two complex numbers
    recalculates, [INFINITY * (a*c - b*d)] and
    [INFINITY * (a*d + b*c)], do not depend on the sign of any operand
    that is a zero: such a zero either is absorbed by the other term of
    the sum, or leaves [INFINITY * 0], which is NaN.  In particular
    they do not depend on the sign that [copysignf] reads from a
    NaN. *)
Theorem recalculation_zero_signs (a a' b b' c c' d d' : Binary32.float) :
  same_but_zero_sign a a' -> same_but_zero_sign b b' ->
  same_but_zero_sign c c' -> same_but_zero_sign d d' ->
  f_mul f_infinity (f_sub (f_mul a c) (f_mul b d))
  = f_mul f_infinity (f_sub (f_mul a' c') (f_mul b' d')) /\
  f_mul f_infinity (f_add (f_mul a d) (f_mul b c))
  = f_mul f_infinity (f_add (f_mul a' d') (f_mul b' c')).
Proof.
  intros Ha Hb Hc Hd.
  split; apply infinity_mul_zero_sign;
    [apply sub_zero_sign|apply add_zero_sign]; apply mul_zero_sign;
    assumption.
Qed.

Lemma single_isnan (x : Binary32.float) : f_isnan x = true -> x = S754_nan.
Proof. destruct x; cbn; intros H; try discriminate H; reflexivity. Qed.

Lemma single_clip_infinity_mul (t : Binary32.float) :
  clip (f_mul f_infinity t) = f_lit 1 1 \/
  clip (f_mul f_infinity t) = f_neg (f_lit 1 1) \/
  clip (f_mul f_infinity t) = S754_nan.
Proof. destruct t as [s|[]| |[] m e]; cbn; auto. Qed.

(** X22.  In single precision, when both parts of conj(u) * v come out
    as NaN, [advance_internal_loop] sets the timing error q to 1, to
    -1 or to NaN: the real part that the multiplication recalculates is
    an infinity, which the two comparisons clip, or NaN, which passes
    them. *)
Theorem recovered_timing_error (s : symsync Binary32.float B)
    (u v : complex Binary32.float) :
  let x := f_add (f_mul (re u) (re v)) (f_mul (im u) (im v)) in
  let y := f_sub (f_mul (re u) (im v)) (f_mul (im u) (re v)) in
  f_isnan x && f_isnan y = true ->
  let q' := q (advance_internal_loop s u v) in
  q' = f_lit 1 1 \/ q' = f_neg (f_lit 1 1) \/ q' = S754_nan.
Proof.
  intros x y H q'. subst q'.
  pose proof (advance_internal_loop_fields s u v) as Hf.
  cbv zeta in Hf. destruct Hf as (-> & _).
  pose proof (timing_error_value u v) as E. cbv zeta in E.
  fold x y in E. rewrite H in E. rewrite E.
  destruct (recover_infinities _ _ _ _) as [[[[a b] c] d]|].
  - apply single_clip_infinity_mul.
  - apply andb_prop in H. destruct H as (Hx & _).
    rewrite (single_isnan _ Hx). right. right. reflexivity.
Qed.

Ltac timing_error_at :=
  match goal with
  | |- q (advance_internal_loop ?s ?u ?v) = _ =>
      let H := fresh in
      pose proof (advance_internal_loop_fields s u v) as H;
      cbv zeta in H; destruct H as (-> & _); vm_compute; reflexivity
  end.

(** X24.  The timing error that [advance_internal_loop] stores, in
    single precision, for filter outputs [u] and [v] that are not
    finite.  With inf for an infinity and big for 2^127:
    - u = inf + NaN i, v = 1: q = 1 (conj(u) is infinite);
    - u = inf - inf i, v = 2i and v = NaN + i/2: q = -1;
    - u = 2, v = inf + NaN i and v = -inf + NaN i: q = 1 and -1 (v is
      infinite);
    - u = NaN - 2i and u = -inf i, v = inf + inf i: q = -1;
    - u = big + NaN i, v = big + i: q = 1 (big * big overflows);
    - u = NaN, v = 1: q = NaN (nothing is infinite);
    - u = inf, v = 0: q = NaN (infinity times zero);
    and for finite outputs, u = 1/2 + 1/4 i, v = 1/2: q = 1/4;
    u = 1 + 2i, v = 3 + 4i and v = 3 - 4i: q = 1 and -1 (11 and -5,
    clipped). *)
Theorem timing_error_at_special_operands (s : symsync Binary32.float B) :
  let inf := S754_infinity false in
  let big := f_lit (2 ^ 127) 1 in
  let te u v := q (advance_internal_loop s u v) in
  te (Cx inf S754_nan) (Cx (f_lit 1 1) (f_lit 0 1)) = f_lit 1 1 /\
  te (Cx inf (f_neg inf)) (Cx (f_lit 0 1) (f_lit 2 1)) = f_lit (-1) 1 /\
  te (Cx inf (f_neg inf)) (Cx S754_nan (f_lit 1 2)) = f_lit (-1) 1 /\
  te (Cx (f_lit 2 1) (f_lit 0 1)) (Cx inf S754_nan) = f_lit 1 1 /\
  te (Cx (f_lit 2 1) (f_lit 0 1)) (Cx (f_neg inf) S754_nan)
  = f_lit (-1) 1 /\
  te (Cx S754_nan (f_lit (-2) 1)) (Cx inf inf) = f_lit (-1) 1 /\
  te (Cx (f_lit 0 1) (f_neg inf)) (Cx inf inf) = f_lit (-1) 1 /\
  te (Cx big S754_nan) (Cx big (f_lit 1 1)) = f_lit 1 1 /\
  te (Cx S754_nan (f_lit 0 1)) (Cx (f_lit 1 1) (f_lit 0 1)) = S754_nan /\
  te (Cx inf (f_lit 0 1)) (Cx (f_lit 0 1) (f_lit 0 1)) = S754_nan /\
  te (Cx (f_lit 1 2) (f_lit 1 4)) (Cx (f_lit 1 2) (f_lit 0 1))
  = f_lit 1 4 /\
  te (Cx (f_lit 1 1) (f_lit 2 1)) (Cx (f_lit 3 1) (f_lit 4 1))
  = f_lit 1 1 /\
  te (Cx (f_lit 1 1) (f_lit 2 1)) (Cx (f_lit 3 1) (f_lit (-4) 1))
  = f_lit (-1) 1.
Proof.
  cbv zeta. repeat (split; [timing_error_at|]). timing_error_at.
Qed.

End SinglePrecisionProduct.

Section SinglePrecisionDerivative.
Context {B : Type} {PFB : FirPfb Binary32.float B}.

(** ** The derivative filter in single precision *)

Lemma binary_normalize_opp (m e : Z) :
  same_but_zero_sign
    (binary_normalize Binary32.prec Binary32.emax (- m) e false)
    (SFopp (binary_normalize Binary32.prec Binary32.emax m e false)).
Proof.
  destruct m as [|p|p]; cbn [Z.opp binary_normalize].
  - right. exists false, true. split; reflexivity.
  - left. unfold binary_round.
    destruct (shl_align _ _ _) as [mz ez].
    apply (Binary32.binary_round_aux_opp false).
  - left. unfold binary_round.
    destruct (shl_align _ _ _) as [mz ez].
    rewrite (Binary32.binary_round_aux_opp false).
    destruct (binary_round_aux _ _ _ _ _ _) as [[]|[]| |[] ? ?]; reflexivity.
Qed.

Lemma sub_swap (x y : Binary32.float) :
  same_but_zero_sign (f_sub y x) (f_neg (f_sub x y)).
Proof.
  destruct x as [sx|sx| |sx mx ex], y as [sy|sy| |sy my ey];
    try (destruct sx, sy; cbn; zero_sign);
    try (destruct sx; cbn; zero_sign);
    try (destruct sy; cbn; zero_sign);
    try (cbn; zero_sign).
  cbn [f_sub f_neg binary32 Binary32.sub SFsub].
  rewrite (Z.min_comm ey ex).
  match goal with
  | |- same_but_zero_sign (binary_normalize _ _ (?a - ?b) _ _) _ =>
      replace (a - b) with (- (b - a)) by lia
  end.
  apply binary_normalize_opp.
Qed.

(** The coefficients of the derivative filter, by their index. *)
Lemma derivative_filter_entry (_k N : Z) (h : list Binary32.float)
    (s : symsync Binary32.float B) :
  let M := Z.of_nat (length h) in
  2 <= M ->
  create _k N h M = Ok s ->
  exists dh : list Binary32.float,
    dmf s = firpfb_create N dh M /\
    length dh = length h /\
    forall i, 0 <= i < M ->
      h_at dh i
      = f_mul (if i =? 0 then f_sub (h_at h 1) (h_at h (M - 1))
               else if i =? M - 1 then f_sub (h_at h 0) (h_at h (M - 2))
               else f_sub (h_at h (i + 1)) (h_at h (i - 1)))
              (dh_scale N).
Proof.
  intros M HM Hc. unfold create in Hc. apply create_from_inv in Hc.
  destruct Hc as (_ & _ & _ & dh & Hdh & ->).
  exists dh. split; [reflexivity|].
  destruct (@dh_loop_in_range _ _ N h M eq_refl HM (Z.to_nat M) 0)
    as (dh' & Hdh' & Hlen & Hnth); [lia|lia|].
  unfold compute_dh in Hdh. rewrite Hdh' in Hdh.
  injection Hdh as ->.
  split; [subst M; lia|].
  intros i Hi.
  pose proof (Hnth i ltac:(lia)) as E. rewrite Z.add_0_l in E.
  rewrite dh_coeff_in_range in E by (auto; lia).
  now injection E.
Qed.

(** X23.  In single precision, for a symmetric prototype
    (h[M-1-i] = h[i]) of at least two coefficients, the derivative
    filter that [create] builds is antisymmetric up to the sign of
    zero: dh[M-1-i] is -dh[i], or both are zeros (where the two
    coefficients that are subtracted are equal, both differences are
    +0).  Every step is exact: [float] subtraction and multiplication
    round both signs alike. *)
Theorem derivative_filter_antisymmetric (_k N : Z)
    (h : list Binary32.float) (s : symsync Binary32.float B) :
  let M := Z.of_nat (length h) in
  2 <= M ->
  create _k N h M = Ok s ->
  (forall i, 0 <= i < M -> h_at h (M - 1 - i) = h_at h i) ->
  exists dh : list Binary32.float,
    dmf s = firpfb_create N dh M /\
    length dh = length h /\
    forall i, 0 <= i < M ->
      same_but_zero_sign (h_at dh (M - 1 - i)) (f_neg (h_at dh i)).
Proof.
  intros M HM Hc Hsym.
  destruct (@derivative_filter_entry _k N h s HM Hc)
    as (dh & Hd & Hl & He).
  fold M in He.
  exists dh. split; [exact Hd|]. split; [exact Hl|].
  intros i Hi.
  rewrite (He i Hi), (He (M - 1 - i)) by lia.
  rewrite <- f_mul_neg_l.
  apply mul_zero_sign; [|left; reflexivity].
  assert (S0 : h_at h (M - 1) = h_at h 0).
  { rewrite <- (Hsym 0) by lia. f_equal. lia. }
  assert (S1 : h_at h (M - 2) = h_at h 1).
  { rewrite <- (Hsym 1) by lia. f_equal. lia. }
  destruct (Z.eqb_spec i 0) as [->|Hi0].
  - replace (M - 1 - 0) with (M - 1) by lia.
    destruct (Z.eqb_spec (M - 1) 0); [lia|]. rewrite Z.eqb_refl.
    rewrite S0, S1. apply sub_swap.
  - destruct (Z.eqb_spec i (M - 1)) as [->|HiM].
    + replace (M - 1 - (M - 1)) with 0 by lia. cbn [Z.eqb].
      rewrite S0, S1. apply sub_swap.
    + destruct (Z.eqb_spec (M - 1 - i) 0); [lia|].
      destruct (Z.eqb_spec (M - 1 - i) (M - 1)); [lia|].
      replace (M - 1 - i + 1) with (M - 1 - (i - 1)) by lia.
      replace (M - 1 - i - 1) with (M - 1 - (i + 1)) by lia.
      rewrite !Hsym by lia. apply sub_swap.
Qed.
End SinglePrecisionDerivative.

(** ** The further properties at the runs *)

Import MoreRuns.

Lemma reachable_wide : reachable flat_design wide.
Proof.
  eapply reach_set_lf_bw; [|exact wide_eq].
  eapply reach_set_output_rate;
    [exact reachable_created| |exact upsampling_eq].
  unfold in_uint, modulus. lia.
Qed.

Lemma reachable_stalled : reachable flat_design stalled.
Proof.
  eapply reach_execute with (fuel := 100%nat) (xs := [x4; x4; x4]);
    [exact reachable_wide|].
  vm_compute. reflexivity.
Qed.

(** X2 at the locked run of six input samples. *)
Lemma execute_keeps_setup_witness :
  snd (execute 100 (lock tuned) (repeat x4 6)) = Ok (held, held_out) /\
  same_setup (lock tuned) held /\
  mf held = fold_left firpfb_push (repeat x4 6) (mf (lock tuned)) /\
  dmf held = fold_left firpfb_push (repeat x4 6) (dmf (lock tuned)).
Proof.
  assert (He : snd (execute 100 (lock tuned) (repeat x4 6))
               = Ok (held, held_out)).
  { vm_compute. reflexivity. }
  split; [exact He|].
  exact (@execute_keeps_setup _ _ _ _ 100%nat (repeat x4 6) (lock tuned)
           held held_out He).
Defined.

(** X4 at the call that writes three outputs. *)
Lemma step_outputs_unlocked_witness :
  is_locked wide = false /\
  Z.of_nat (length (fst (step 100 wide x4))) < modulus /\
  snd (step 100 wide x4) = Ok (paced, paced_out) /\
  length paced_out = 3%nat /\
  paced_out = map (scaled_output paced)
                  (mf_indices (fst (step 100 wide x4))).
Proof.
  assert (L : is_locked wide = false) by reflexivity.
  assert (Hlt : Z.of_nat (length (fst (step 100 wide x4))) < modulus).
  { vm_compute. reflexivity. }
  assert (Hs : snd (step 100 wide x4) = Ok (paced, paced_out)).
  { vm_compute. reflexivity. }
  split; [exact L|]. split; [exact Hlt|]. split; [exact Hs|].
  split; [reflexivity|].
  exact (proj1 (@step_outputs_unlocked _ _ _ _ 100%nat wide x4 paced
                  paced_out L Hlt Hs)).
Defined.

(** X5 at a call on a locked object. *)
Lemma step_outputs_from_matched_bank_witness :
  snd (step 100 (lock tuned) x4) = Ok (kept, kept_out) /\
  Forall (fun v => exists i,
              In (Evaluate MF i) (fst (step 100 (lock tuned) x4)) /\
              v = scaled_output kept i) kept_out /\
  (length kept_out
   <= length (mf_indices (fst (step 100 (lock tuned) x4))))%nat.
Proof.
  assert (Hs : snd (step 100 (lock tuned) x4) = Ok (kept, kept_out)).
  { vm_compute. reflexivity. }
  split; [exact Hs|].
  destruct (@step_outputs_from_matched_bank _ _ _ _ 100%nat (lock tuned)
              x4 kept kept_out Hs) as (H1 & H2 & _).
  split; [exact H1|exact H2].
Defined.

(** X6 at the object after one input
    sample, whose index is one bank ahead. *)
Lemma execute_skips_whole_symbols_witness :
  in_uint (npfb stepped) /\ b stepped <= max_int /\
  Z.of_nat (length [x4]) * npfb stepped <= b stepped /\
  exists s',
    execute 100 stepped [x4] = ([], Ok (s', [])) /\ b s' = 0.
Proof.
  assert (Hu : in_uint (npfb stepped)).
  { unfold in_uint, modulus. cbn. lia. }
  assert (Hm : b stepped <= max_int).
  { unfold max_int, half_modulus. cbn. lia. }
  assert (Hb : Z.of_nat (length [x4]) * npfb stepped <= b stepped).
  { cbn. lia. }
  split; [exact Hu|]. split; [exact Hm|]. split; [exact Hb|].
  destruct (@execute_skips_whole_symbols _ _ _ _ 100%nat [x4] stepped
              Hu Hm Hb) as (s' & He & Hb' & _).
  exists s'. split; [exact He|]. rewrite Hb'. reflexivity.
Defined.

(** X7 at the stalled object. *)
Lemma execute_stalls_witness :
  b stalled < 0 /\ 0 <= npfb stalled <= half_modulus /\
  min_int <= b stalled - Z.of_nat (length (repeat x4 8)) * npfb stalled /\
  exists s',
    execute 100 stalled (repeat x4 8) = ([], Ok (s', [])) /\ b s' = -10.
Proof.
  assert (Hneg : b stalled < 0) by (cbn; lia).
  assert (Hn : 0 <= npfb stalled <= half_modulus).
  { unfold half_modulus. cbn. lia. }
  assert (Hlow : min_int <= b stalled
                            - Z.of_nat (length (repeat x4 8))
                              * npfb stalled).
  { unfold min_int, half_modulus. cbn. lia. }
  split; [exact Hneg|]. split; [exact Hn|]. split; [exact Hlow|].
  destruct (@execute_stalls_on_negative_index _ _ _ _ 100%nat
              (repeat x4 8) stalled Hneg Hn Hlow) as (s' & He & Hb' & _).
  exists s'. split; [exact He|]. rewrite Hb'. reflexivity.
Defined.

(** X8 at the locked run. *)
Lemma decim_counter_bounded_witness :
  1 <= k_out (lock tuned) < modulus /\
  0 <= decim_counter (lock tuned) <= k_out (lock tuned) /\
  snd (execute 100 (lock tuned) (repeat x4 6)) = Ok (held, held_out) /\
  0 <= decim_counter held <= k_out held.
Proof.
  assert (Hk : 1 <= k_out (lock tuned) < modulus).
  { unfold modulus. cbn. lia. }
  assert (Hc : 0 <= decim_counter (lock tuned) <= k_out (lock tuned)).
  { cbn. lia. }
  assert (He : snd (execute 100 (lock tuned) (repeat x4 6))
               = Ok (held, held_out)).
  { vm_compute. reflexivity. }
  split; [exact Hk|]. split; [exact Hc|]. split; [exact He|].
  exact (proj1 (@decim_counter_bounded _ _ _ _ 100%nat (repeat x4 6)
                  (lock tuned) held held_out Hk Hc He)).
Defined.

(** X9 at the locked run of six input samples. *)
Lemma locked_trace_witness :
  is_locked (lock tuned) = true /\
  length (fst (execute 100 (lock tuned) (repeat x4 6))) = 5%nat /\
  Forall (fun ev => ev_bank ev = MF)
         (fst (execute 100 (lock tuned) (repeat x4 6))).
Proof.
  assert (L : is_locked (lock tuned) = true) by reflexivity.
  split; [exact L|]. split; [vm_compute; reflexivity|].
  exact (@locked_never_evaluates_derivative_bank _ _ _ _ 100%nat
           (repeat x4 6) (lock tuned) L).
Defined.

(** X10 at a run of six input samples. *)
Lemma execute_bank_index_safe_witness :
  reachable flat_design tuned /\ npfb tuned <= half_modulus /\
  Forall (fun ev => 0 <= ev_index ev < npfb tuned)
         (fst (execute 100 tuned (repeat x4 6))).
Proof.
  assert (Hn : npfb tuned <= half_modulus).
  { unfold half_modulus. cbn. lia. }
  split; [exact reachable_tuned|]. split; [exact Hn|].
  exact (@execute_bank_index_safe _ _ _ _ flat_design 100%nat
           (repeat x4 6) tuned reachable_tuned Hn).
Defined.

(** X12 at the object of the runs. *)
Lemma create_defaults_witness :
  create 2 1 h3 3 = Ok created /\
  k_out created = 1 /\ is_locked created = false /\
  tau created = f_lit 0 1 /\
  alpha created = f_sub (f_lit 1 1) (f_lit 1 100) /\
  beta created = f_mul (f_lit 22 100) (f_lit 1 100).
Proof.
  split; [exact created_eq|].
  destruct (create_defaults _ _ _ _ created_eq)
    as (_ & _ & H3 & H4 & _ & _ & H7 & _ & _ & _ & _ & _ & _ & H14 &
        H15 & _).
  repeat split; assumption.
Defined.

(** X15 with k = 2, m = 1, rolloff 0.5
    and one sub-filter: five coefficients, sub-filters of length 4. *)
Lemma create_rnyquist_returns_object_witness :
  f_lt (fl 1 2) (f_lit 0 1) || f_gt (fl 1 2) (f_lit 1 1) = false /\
  2 * 1 * 2 * 1 + 1
    <= Z.of_nat (length (flat_design 0 (2 * 1) 1 (fl 1 2) (f_lit 0 1))) /\
  exists (H : list float) (s : sync),
    length H = 5%nat /\
    create_rnyquist flat_design 0 2 1 (fl 1 2) 1 = Ok s /\
    create 2 1 H 5 = Ok s /\ h_len s = 4.
Proof.
  assert (Hb : f_lt (fl 1 2) (f_lit 0 1) || f_gt (fl 1 2) (f_lit 1 1)
               = false) by reflexivity.
  assert (Hf : 2 * 1 * 2 * 1 + 1
               <= Z.of_nat (length (flat_design 0 (2 * 1) 1 (fl 1 2)
                                                (f_lit 0 1)))).
  { vm_compute. discriminate. }
  split; [exact Hb|]. split; [exact Hf|].
  destruct (@create_rnyquist_returns_object _ _ flat_design 0 2 1
              (fl 1 2) 1 ltac:(lia) ltac:(lia) ltac:(lia) Hb
              ltac:(unfold modulus; lia) Hf)
    as (H & s & Hlen & _ & Hr & Hc & Hh & _).
  exists H, s. repeat split; assumption.
Defined.

(** X16 with k = 1. *)
Lemma create_rnyquist_exit_conditions_witness :
  wrap_uint (2 * 1 * 1 * 1 + 1)
    <= Z.of_nat (length (flat_design 0 (wrap_uint (1 * 1)) 1 (fl 1 2)
                                     (f_lit 0 1))) /\
  create_rnyquist (B := @SpecFirPfb.bank float) flat_design 0 1 1
                  (fl 1 2) 1 = Fatal.
Proof.
  assert (Hf : wrap_uint (2 * 1 * 1 * 1 + 1)
               <= Z.of_nat (length (flat_design 0 (wrap_uint (1 * 1)) 1
                                                (fl 1 2) (f_lit 0 1)))).
  { vm_compute. discriminate. }
  split; [exact Hf|].
  apply (proj2 (@create_rnyquist_exit_conditions _ _ flat_design 0 1 1
                  (fl 1 2) 1 Hf)).
  left. lia.
Defined.

(** X17 at the stalled object, whose timing
    error is -1. *)
Lemma single_precision_q_clipped_witness :
  reachable flat_design stalled /\
  q stalled = f_neg (f_lit 1 1) /\
  f_gt (q stalled) (f_lit 1 1) = false /\
  f_lt (q stalled) (f_neg (f_lit 1 1)) = false.
Proof.
  split; [exact reachable_stalled|]. split; [reflexivity|].
  exact (@single_precision_q_clipped _ _ flat_design stalled
           reachable_stalled).
Defined.

(** X18 at the new object. *)
Lemma setrate_zero_witness :
  loop_test created = true /\
  del (setrate created (f_lit 0 1)) = S754_infinity false /\
  snd (step 100 (setrate created (f_lit 0 1)) x4) = Undefined.
Proof.
  assert (T : loop_test created = true) by reflexivity.
  assert (Hc : decim_counter created <> k_out created)
    by (cbn; discriminate).
  split; [exact T|].
  exact (@setrate_zero_breaks_next_step _ _ 99%nat created x4 T Hc).
Defined.

(** X19 at the object after two input
    samples. *)
Lemma nan_bandwidth_witness :
  loop_test twice = true /\ decim_counter twice = k_out twice /\
  is_locked twice = false /\
  exists s1,
    set_lf_bw twice S754_nan = Ok s1 /\
    snd (step 100 s1 x4) = Undefined.
Proof.
  assert (T : loop_test twice = true) by reflexivity.
  assert (Hc : decim_counter twice = k_out twice) by reflexivity.
  assert (L : is_locked twice = false) by reflexivity.
  split; [exact T|]. split; [exact Hc|]. split; [exact L|].
  destruct (@nan_bandwidth_is_accepted _ _ 99%nat twice x4 T Hc L)
    as (s1 & Hs & _ & _ & Hu).
  exists s1. split; [exact Hs|exact Hu].
Defined.



(** X21 at a NaN operand, read as a zero of either sign. *)
Lemma recalculation_zero_signs_witness :
  same_but_zero_sign (S754_zero true) (S754_zero false) /\
  f_mul f_infinity
    (f_sub (f_mul (fl 1 1) (fl 1 1)) (f_mul (S754_zero true) (fl 0 1)))
  = f_mul f_infinity
      (f_sub (f_mul (fl 1 1) (fl 1 1)) (f_mul (S754_zero false) (fl 0 1))) /\
  f_mul f_infinity
    (f_sub (f_mul (fl 1 1) (fl 1 1)) (f_mul (S754_zero false) (fl 0 1)))
  = S754_infinity false.
Proof.
  assert (Hz : same_but_zero_sign (S754_zero true) (S754_zero false)).
  { right. exists true, false. split; reflexivity. }
  assert (He : forall x : float, same_but_zero_sign x x)
    by (intros x; left; reflexivity).
  split; [exact Hz|]. split; [|reflexivity].
  exact (proj1 (recalculation_zero_signs (He (fl 1 1)) Hz (He (fl 1 1))
                  (He (fl 0 1)))).
Defined.

(** X22 at the matched-filter output infinity + NaN i and the
    derivative output 1: q is set to 1. *)
Lemma recovered_timing_error_witness :
  f_isnan (f_add (f_mul (re lost) (re unit)) (f_mul (im lost) (im unit)))
  && f_isnan (f_sub (f_mul (re lost) (im unit)) (f_mul (im lost) (re unit)))
  = true /\
  (q (advance_internal_loop created lost unit) = f_lit 1 1 \/
   q (advance_internal_loop created lost unit) = f_neg (f_lit 1 1) \/
   q (advance_internal_loop created lost unit) = S754_nan) /\
  q (advance_internal_loop created lost unit) = f_lit 1 1.
Proof.
  split; [reflexivity|]. split; [|reflexivity].
  apply (recovered_timing_error created lost unit). reflexivity.
Defined.

(** X23 at the symmetric prototype of three coefficients: the outer
    coefficients of the derivative filter are opposite, the middle one
    is a zero. *)
Lemma derivative_filter_antisymmetric_witness :
  2 <= Z.of_nat (length h3) /\
  create 2 1 h3 (Z.of_nat (length h3)) = Ok created /\
  (forall i, 0 <= i < Z.of_nat (length h3) ->
             h_at h3 (Z.of_nat (length h3) - 1 - i) = h_at h3 i) /\
  exists dh : list float,
    dmf created = firpfb_create 1 dh 3 /\
    same_but_zero_sign (h_at dh 2) (f_neg (h_at dh 0)) /\
    same_but_zero_sign (h_at dh 1) (f_neg (h_at dh 1)).
Proof.
  assert (H2 : 2 <= Z.of_nat (length h3)) by (cbn; lia).
  assert (Hc : create 2 1 h3 (Z.of_nat (length h3)) = Ok created)
    by exact created_eq.
  assert (Hs : forall i, 0 <= i < Z.of_nat (length h3) ->
                 h_at h3 (Z.of_nat (length h3) - 1 - i) = h_at h3 i).
  { intros i Hi. cbn in Hi.
    assert (E : i = 0 \/ i = 1 \/ i = 2) by lia.
    destruct E as [->|[->| ->]]; reflexivity. }
  split; [exact H2|]. split; [exact Hc|]. split; [exact Hs|].
  destruct (@derivative_filter_antisymmetric _ _ 2 1 h3 created H2 Hc Hs)
    as (dh & Hd & _ & Ha).
  exists dh. split; [exact Hd|].
  split; [apply (Ha 0)|apply (Ha 1)]; cbn; lia.
Defined.
